(** * The Schwarzschild black-hole fragment shader of [BlackHole]

    A shallow embedding of the GLSL fragment shader held by the
    [ShaderMaterial] of the [BlackHole] component, and the properties of
    its shading functions.

    Numeric model.  A GLSL [float] is read as a real number, so that the
    arithmetic of the shader is the exact arithmetic of [R]: no rounding,
    no overflow.  A decimal literal of the shader is the same decimal
    literal here ([2.59807621135] is the rational 259807621135 / 10^11).

    Undefined results.  GLSL leaves the quotient [x / 0], the vector
    [normalize(0)] and [pow(x, y)] outside its domain without a specified
    value.  Those operations live in the error monad [M]: [None] is "no
    defined result", and a shading function has a defined result exactly
    when none of the operations it performs is undefined.  The square
    root is that of the reals; the shader takes the root of a negative
    number only under a negative [rs]. *)

From Stdlib Require Import Reals Lra Psatz RNsatz.

Open Scope R_scope.

(** ** The error monad *)

Definition M (A : Type) : Type := option A.

Definition ret {A : Type} (a : A) : M A := Some a.

Definition bind {A B : Type} (m : M A) (k : A -> M B) : M B :=
  match m with
  | Some a => k a
  | None => None
  end.

Notation "x <- m ;; k" := (bind m (fun x => k))
  (at level 61, m at next level, right associativity).

(** ** GLSL scalars, vectors and built-in functions *)

Module Glsl.

Definition ltb (x y : R) : bool := if Rlt_dec x y then true else false.
Definition leb (x y : R) : bool := if Rle_dec x y then true else false.

(** [x / y] of GLSL: undefined when the denominator is zero. *)
Definition fdiv (x y : R) : M R :=
  if Req_dec_T y 0 then None else Some (x / y).

Record vec2 : Type := mk2 { ux : R; uy : R }.
Record vec3 : Type := mk3 { vx : R; vy : R; vz : R }.
Record vec4 : Type := mk4 { wx : R; wy : R; wz : R; ww : R }.

(** [vec3(s)] *)
Definition splat (s : R) : vec3 := mk3 s s s.

Definition vadd (a b : vec3) : vec3 :=
  mk3 (vx a + vx b) (vy a + vy b) (vz a + vz b).

(** [v + s] with a scalar [s] *)
Definition vadds (a : vec3) (s : R) : vec3 :=
  mk3 (vx a + s) (vy a + s) (vz a + s).

(** [v * s] with a scalar [s] *)
Definition vscale (a : vec3) (s : R) : vec3 :=
  mk3 (vx a * s) (vy a * s) (vz a * s).

Definition vneg (a : vec3) : vec3 := mk3 (- vx a) (- vy a) (- vz a).

Definition dot (a b : vec3) : R := vx a * vx b + vy a * vy b + vz a * vz b.

Definition cross (a b : vec3) : vec3 :=
  mk3 (vy a * vz b - vz a * vy b)
      (vz a * vx b - vx a * vz b)
      (vx a * vy b - vy a * vx b).

Definition length (a : vec3) : R := sqrt (dot a a).

Definition length2 (a : vec2) : R := sqrt (ux a * ux a + uy a * uy a).

(** [normalize(v)] is [v / length(v)], component by component. *)
Definition normalize (a : vec3) : M vec3 :=
  x <- fdiv (vx a) (length a) ;;
  y <- fdiv (vy a) (length a) ;;
  z <- fdiv (vz a) (length a) ;;
  ret (mk3 x y z).

(** the swizzles the shader uses *)
Definition yzx (a : vec3) : vec3 := mk3 (vy a) (vz a) (vx a).
Definition xz (a : vec3) : vec2 := mk2 (vx a) (vz a).

Definition floor (x : R) : R := IZR (Int_part x).
Definition fract (x : R) : R := x - floor x.
Definition floor3 (a : vec3) : vec3 := mk3 (floor (vx a)) (floor (vy a)) (floor (vz a)).
Definition fract3 (a : vec3) : vec3 := mk3 (fract (vx a)) (fract (vy a)) (fract (vz a)).

Definition max (x y : R) : R := if ltb x y then y else x.
Definition min (x y : R) : R := if ltb y x then y else x.
Definition clamp (x lo hi : R) : R := min (max x lo) hi.

(** [mix(x, y, a)] is [x * (1 - a) + y * a]. *)
Definition mix (x y a : R) : R := x * (1 - a) + y * a.
Definition mix3 (x y : vec3) (a : R) : vec3 :=
  mk3 (mix (vx x) (vx y) a) (mix (vy x) (vy y) a) (mix (vz x) (vz y) a).

(** [smoothstep(edge0, edge1, x)]: Hermite interpolation of the clamped
    ratio [(x - edge0) / (edge1 - edge0)]. *)
Definition smoothstep (edge0 edge1 x : R) : M R :=
  q <- fdiv (x - edge0) (edge1 - edge0) ;;
  let t := clamp q 0 1 in
  ret (t * t * (3 - 2 * t)).

(** [pow(x, y)]: defined for [x > 0], and for [x = 0] when [y > 0]. *)
Definition pow (x y : R) : M R :=
  if ltb 0 x then Some (Rpower x y)
  else if Req_dec_T x 0 then (if ltb 0 y then Some 0 else None)
  else None.

End Glsl.

Import Glsl.

(** ** The uniforms of the material *)

Record uniforms : Type := mkUniforms {
  iTime : R;
  iResolution : vec3;
  rs : R;           (* Schwarzschild radius r_s = 2GM/c^2 *)
  camDistance : R;  (* camera distance on +z *)
  diskInner : R;    (* inner radius of accretion disk *)
  diskOuter : R     (* outer radius of disk *)
}.

(** The uniforms the component installs (the resolution is the size of
    its container). *)
Definition defaults (w h : R) : uniforms :=
  mkUniforms 0 (mk3 w h 1) 1 8 1.2 8.

(** ** The shading functions *)

(** Pseudo-random for stars *)
Definition hash13 (p : vec3) : R :=
  let p := fract3 (vadd (vscale p 0.3183099) (mk3 0.1 0.2 0.3)) in
  let p := vadds p (dot p (vadds (yzx p) 19.19)) in
  fract (vx p * vy p * vz p).

(** Rotate vector v around axis by angle using Rodrigues' formula *)
Definition rotateAround (v axis : vec3) (angle : R) : vec3 :=
  let c := cos angle in
  let s := sin angle in
  vadd (vadd (vscale v c) (vscale (cross axis v) s))
       (vscale (vscale axis (dot axis v)) (1 - c)).

(** Background starfield based on direction *)
Definition starfield (dir : vec3) : M vec3 :=
  n <- normalize dir ;;
  let p := vscale n 123 in
  d <- smoothstep 0.995 1 (hash13 (floor3 (vscale p 20))) ;;
  m <- pow d 24 ;;
  let col :=
    vscale (mk3 (0.6 + 0.4 * hash13 (vadds p 1)) (0.7 + 0.3 * hash13 (vadds p 2)) 1) m in
  let n := hash13 (floor3 (vscale dir 10)) in
  ret (vadd col (vscale (mk3 0.02 0.01 0.03) n)).

(** The Doppler factor of [diskColor]:
    [pow((1.0 - v * cosTheta) / sqrt(1.0 - v*v), -3.0)]. *)
Definition doppler (v cosTheta : R) : M R :=
  q <- fdiv (1 - v * cosTheta) (sqrt (1 - v * v)) ;;
  pow q (-3).

(** Simple beamed accretion disk color *)
Definition diskColor (u : uniforms) (pos dir : vec3) : M vec3 :=
  let r := length2 (xz pos) in
  if (ltb r (diskInner u) || ltb (diskOuter u) r)%bool then ret (splat 0)
  else
    q <- fdiv (rs u) (2 * r) ;;
    let v := clamp (sqrt q) 0 0.6 in
    tangential <- normalize (mk3 (- vz pos) 0 (vx pos)) ;;
    let cosTheta := dot tangential (vneg dir) in
    dop <- doppler v cosTheta ;;
    q <- fdiv (diskOuter u - r) (diskOuter u - diskInner u) ;;
    let t := clamp q 0 1 in
    e <- pow t 0.6 ;;
    let base := mix3 (mk3 0.8 0.4 0.1) (mk3 1 0.95 0.85) e in
    ret (vscale (vscale base dop) 0.6).

(** The critical impact parameter as the shader writes it:
    [2.59807621135 * rs], its decimal for (3*sqrt(3)/2) * rs. *)
Definition bc_of (rs_local : R) : R := 2.59807621135 * rs_local.

(** Weak-field bending.  The [out float capture] is the second component
    of the result. *)
Definition bendRay (ro rd : vec3) (rs_local : R) : M (vec3 * R) :=
  let b := length (cross ro rd) in
  let bc := bc_of rs_local in
  if ltb b bc then ret (rd, 1)
  else
    alpha <- fdiv (2 * rs_local) (max b 1e-5) ;;
    axis <- normalize (cross ro rd) ;;
    ret (rotateAround rd axis alpha, 0).

(** Intersect plane y=0 with ray.  [Some hit] is [true] with the
    [out vec3 hit] set, [None] is [false]. *)
Definition intersectDisk (ro rd : vec3) : M (option vec3) :=
  t <- fdiv (- vy ro) (vy rd + 1e-6) ;;
  if leb t 0 then ret None
  else ret (Some (vadd ro (vscale rd t))).

(** The gravitational redshift factor of [main]:
    [sqrt(max(1.0 - rs / max(r, 1e-3), 0.0001))]. *)
Definition redshift (rs_ r : R) : M R :=
  q <- fdiv rs_ (max r 1e-3) ;;
  ret (sqrt (max (1 - q) 0.0001)).

(** The captured branch of [main]: the value written to [gl_FragColor]. *)
Definition shadow (ro rd : vec3) (rs_ : R) : M vec4 :=
  let b := length (cross ro rd) in
  let bc := bc_of rs_ in
  edge <- smoothstep (bc * 0.9) (bc * 1.05) b ;;
  let k := 1 - (1 - edge) * 0.06 in
  ret (mk4 (0 * k) (0 * k) (0 * k) (1 * k)).

(** The body of [if (intersectDisk(ro, rd2, hit))] in [main]: the color
    after the disk has been blended over the background [col]. *)
Definition diskBlend (u : uniforms) (col hit rd2 : vec3) : M vec3 :=
  let r := length2 (xz hit) in
  if ltb (1.05 * rs u) r then
    dcol <- diskColor u hit rd2 ;;
    z <- redshift (rs u) r ;;
    let dcol := vscale dcol z in
    a <- smoothstep (diskOuter u) (diskInner u) r ;;
    let alpha := a * 0.85 in
    ret (mix3 col dcol alpha)
  else ret col.

(** The tone map of one channel: [col / (col + 1.0)]. *)
Definition tonemap (x : R) : M R := fdiv x (x + 1).

(** Photon-ring glow, vignette and tone map: the end of [main], applied
    to the color [col] of the background-and-disk stage. *)
Definition finish (ro rd : vec3) (rs_ : R) (uv : vec2) (col : vec3) : M vec4 :=
  let b := length (cross ro rd) in
  let bc := bc_of rs_ in
  let ring := exp (-30 * Rabs (b - bc)) in
  let col := vadd col (vscale (vscale (mk3 1 0.9 0.7) ring) 0.35) in
  vig <- smoothstep 1.4 0.1 (length2 uv) ;;
  let col := vscale col (mix 0.6 1 vig) in
  r <- tonemap (vx col) ;;
  g <- tonemap (vy col) ;;
  b' <- tonemap (vz col) ;;
  ret (mk4 r g b' 1).

(** [main] from the camera setup on, for the aspect-corrected [uv]. *)
Definition shade (u : uniforms) (uv : vec2) : M vec4 :=
  let ro := mk3 0 0 (camDistance u) in
  rd <- normalize (mk3 (ux uv) (uy uv) (-1.5)) ;;
  bent <- bendRay ro rd (rs u) ;;
  let rd2 := fst bent in
  let captured := snd bent in
  if ltb 0.5 captured then shadow ro rd (rs u)
  else
    bg <- starfield rd2 ;;
    h <- intersectDisk ro rd2 ;;
    col <- match h with
           | Some hit => diskBlend u bg hit rd2
           | None => ret bg
           end ;;
    finish ro rd (rs u) uv col.

(** The first two statements of [main]: the aspect-corrected coordinate. *)
Definition screen_uv (u : uniforms) (gl_FragCoord : vec2) : M vec2 :=
  qx <- fdiv (ux gl_FragCoord) (vx (iResolution u)) ;;
  qy <- fdiv (uy gl_FragCoord) (vy (iResolution u)) ;;
  let uv := mk2 (qx * 2 - 1) (qy * 2 - 1) in
  a <- fdiv (vx (iResolution u)) (vy (iResolution u)) ;;
  ret (mk2 (ux uv * a) (uy uv)).

Definition main (u : uniforms) (gl_FragCoord : vec2) : M vec4 :=
  uv <- screen_uv u gl_FragCoord ;;
  shade u uv.

(** [main] with the disk stage taken out: starfield on the bent
    direction, then glow, vignette and tone map. *)
Definition shadeNoDisk (u : uniforms) (uv : vec2) : M vec4 :=
  let ro := mk3 0 0 (camDistance u) in
  rd <- normalize (mk3 (ux uv) (uy uv) (-1.5)) ;;
  bent <- bendRay ro rd (rs u) ;;
  if ltb 0.5 (snd bent) then shadow ro rd (rs u)
  else
    bg <- starfield (fst bent) ;;
    finish ro rd (rs u) uv bg.

(** ** The host's writes to the uniforms *)

(** [tick], with the refs of the mounted component set:
    [uniforms.iTime.value = t * 0.001]. *)
Definition tick (t : R) (u : uniforms) : uniforms :=
  mkUniforms (t * 0.001) (iResolution u) (rs u) (camDistance u)
             (diskInner u) (diskOuter u).

(** [onResize], with the refs of the mounted component set:
    [uniforms.iResolution.value.set(w, h, 1)]. *)
Definition onResize (w h : R) (u : uniforms) : uniforms :=
  mkUniforms (iTime u) (mk3 w h 1) (rs u) (camDistance u)
             (diskInner u) (diskOuter u).

(** ** Notions the properties are stated with *)

(** [f r] tends to [l] as [r] decreases to [a]: near [a], on its right,
    [f] is defined and within any given distance of [l]. *)
Definition tends_from_above (f : R -> M R) (a l : R) : Prop :=
  forall eps : R, 0 < eps ->
    exists delta : R, 0 < delta /\
      forall r : R, a < r < a + delta ->
        exists z : R, f r = Some z /\ Rabs (z - l) < eps.

(** The angle between two unit vectors. *)
Definition angle (a b : vec3) : R := acos (dot a b).

(** The unit vector from the point of the line [o + t d] nearest to the
    origin (where the black hole sits) to the origin; [b] is the distance
    of that point, the impact parameter. *)
Definition toward_hole (o d : vec3) (b : R) : vec3 :=
  vscale (vadd (vscale d (dot o d)) (vneg o)) (/ b).

(** ** Basic facts about the built-ins *)

Lemma ltb_true (x y : R) : x < y -> ltb x y = true.
Proof. intros H. unfold ltb. destruct (Rlt_dec x y); [reflexivity | contradiction]. Qed.

Lemma ltb_false (x y : R) : y <= x -> ltb x y = false.
Proof. intros H. unfold ltb. destruct (Rlt_dec x y); [lra | reflexivity]. Qed.

Lemma leb_true (x y : R) : x <= y -> leb x y = true.
Proof. intros H. unfold leb. destruct (Rle_dec x y); [reflexivity | contradiction]. Qed.

Lemma leb_false (x y : R) : y < x -> leb x y = false.
Proof. intros H. unfold leb. destruct (Rle_dec x y); [lra | reflexivity]. Qed.

Lemma fdiv_some (x y : R) : y <> 0 -> fdiv x y = Some (x / y).
Proof. intros H. unfold fdiv. destruct (Req_dec_T y 0); [contradiction | reflexivity]. Qed.

Lemma fdiv_zero (x y : R) : y = 0 -> fdiv x y = None.
Proof. intros H. unfold fdiv. destruct (Req_dec_T y 0); [reflexivity | contradiction]. Qed.

Lemma max_spec (x y : R) : (x < y /\ max x y = y) \/ (y <= x /\ max x y = x).
Proof.
  unfold max, ltb. destruct (Rlt_dec x y); [left | right]; split; lra.
Qed.

Ltac max_cases a b := destruct (max_spec a b) as [[? ->] | [? ->]].

Lemma min_spec (x y : R) : (y < x /\ min x y = y) \/ (x <= y /\ min x y = x).
Proof.
  unfold min, ltb. destruct (Rlt_dec y x); [left | right]; split; lra.
Qed.

Lemma clamp_bounds (x lo hi : R) : lo <= hi -> lo <= clamp x lo hi <= hi.
Proof.
  intros H. unfold clamp.
  max_cases x lo;
    [destruct (min_spec lo hi) as [[? ->] | [? ->]]
    | destruct (min_spec x hi) as [[? ->] | [? ->]]]; lra.
Qed.

Lemma pow_pos_base (x y : R) : 0 < x -> pow x y = Some (Rpower x y).
Proof. intros H. unfold pow. rewrite (ltb_true _ _ H). reflexivity. Qed.

Lemma pow_zero_base (y : R) : 0 < y -> pow 0 y = Some 0.
Proof.
  intros H. unfold pow. rewrite (ltb_false 0 0) by lra.
  destruct (Req_dec_T 0 0) as [_ | N]; [| contradiction N; reflexivity].
  rewrite (ltb_true _ _ H). reflexivity.
Qed.

Lemma Rpower_pos (x y : R) : 0 < Rpower x y.
Proof. unfold Rpower. apply exp_pos. Qed.

(** ** Tone mapping *)

Lemma tonemap_value (x : R) : 0 <= x -> tonemap x = Some (x / (x + 1)).
Proof. intros H. unfold tonemap. apply fdiv_some. lra. Qed.

(** C9.  For a non-negative channel value the tone map [x / (x + 1)] is
    defined, lies in [0, 1), and is strictly increasing in its input. *)
Theorem tonemap_bounded_increasing :
  forall x : R, 0 <= x ->
    exists t : R, tonemap x = Some t /\ 0 <= t < 1 /\
      forall y : R, x < y ->
        exists t' : R, tonemap y = Some t' /\ t < t'.
Proof.
  intros x Hx. exists (x / (x + 1)).
  split; [apply tonemap_value; assumption |].
  assert (Hq : forall a : R, 0 <= a -> a / (a + 1) = 1 - / (a + 1)).
  { intros a Ha. field. lra. }
  assert (Hi : forall a : R, 0 <= a -> 0 < / (a + 1) <= 1).
  { intros a Ha. split.
    - apply Rinv_0_lt_compat. lra.
    - rewrite <- Rinv_1 at 2. apply Rinv_le_contravar; lra. }
  split.
  - rewrite Hq by assumption. specialize (Hi x Hx). lra.
  - intros y Hxy. exists (y / (y + 1)).
    split; [apply tonemap_value; lra |].
    rewrite !Hq by lra.
    assert (/ (y + 1) < / (x + 1)) by (apply Rinv_lt_contravar; nra).
    lra.
Qed.

Lemma tonemap_bounded_increasing_witness :
  0 <= 1 /\
  exists t : R, tonemap 1 = Some t /\ 0 <= t < 1 /\
    forall y : R, 1 < y -> exists t' : R, tonemap y = Some t' /\ t < t'.
Proof. split; [lra | apply (tonemap_bounded_increasing 1); lra]. Defined.

(** ** The Doppler factor *)

Lemma doppler_value (v c : R) :
  0 <= v <= 0.6 -> -1 <= c <= 1 ->
  0 < (1 - v * c) / sqrt (1 - v * v) /\
  doppler v c = Some (Rpower ((1 - v * c) / sqrt (1 - v * v)) (-3)).
Proof.
  intros Hv Hc.
  assert (Hs : 0 < sqrt (1 - v * v)) by (apply sqrt_lt_R0; nra).
  assert (Hn : 0 < 1 - v * c) by nra.
  assert (Hq : 0 < (1 - v * c) / sqrt (1 - v * v)) by (apply Rdiv_lt_0_compat; assumption).
  split; [assumption |].
  unfold doppler. rewrite fdiv_some by lra. cbn [bind].
  apply pow_pos_base. assumption.
Qed.

(** C8.  For a fixed orbital speed [0 < v <= 0.6] the Doppler factor of
    the disk shader is defined on [-1, 1] and strictly increasing in
    [cosTheta] there. *)
Theorem doppler_strictly_increasing :
  forall v c1 c2 : R,
    0 < v <= 0.6 -> -1 <= c1 -> c1 < c2 -> c2 <= 1 ->
    exists D1 D2 : R,
      doppler v c1 = Some D1 /\ doppler v c2 = Some D2 /\ D1 < D2.
Proof.
  intros v c1 c2 Hv H1 H12 H2.
  destruct (doppler_value v c1) as [P1 E1]; [lra | lra |].
  destruct (doppler_value v c2) as [P2 E2]; [lra | lra |].
  exists (Rpower ((1 - v * c1) / sqrt (1 - v * v)) (-3)),
         (Rpower ((1 - v * c2) / sqrt (1 - v * v)) (-3)).
  split; [assumption | split; [assumption |]].
  unfold Rpower. apply exp_increasing.
  assert (Hs : 0 < sqrt (1 - v * v)) by (apply sqrt_lt_R0; nra).
  assert (Hlt : (1 - v * c2) / sqrt (1 - v * v) < (1 - v * c1) / sqrt (1 - v * v)).
  { unfold Rdiv. apply Rmult_lt_compat_r; [apply Rinv_0_lt_compat; assumption | nra]. }
  pose proof (ln_increasing _ _ P2 Hlt). lra.
Qed.

Lemma doppler_strictly_increasing_witness :
  exists D1 D2 : R,
    doppler 0.5 (-1) = Some D1 /\ doppler 0.5 1 = Some D2 /\ D1 < D2.
Proof. apply (doppler_strictly_increasing 0.5 (-1) 1); lra. Defined.

(** ** The gravitational redshift factor *)

Lemma sqrt_1_10000 : sqrt 0.0001 = 0.01.
Proof. apply sqrt_lem_1; lra. Qed.

Lemma redshift_floor (rs_ r : R) :
  0 < rs_ -> rs_ < r ->
  exists z : R, redshift rs_ r = Some z /\ 0.01 <= z < 1.
Proof.
  intros Hrs Hr. unfold redshift.
  assert (Hm : r <= max r 1e-3) by (max_cases r 1e-3; lra).
  rewrite fdiv_some by lra. cbn [bind ret].
  eexists; split; [reflexivity |].
  assert (Hq : 0 < rs_ / max r 1e-3 < 1).
  { split.
    - apply Rdiv_lt_0_compat; lra.
    - apply (Rmult_lt_reg_r (max r 1e-3)); [lra |].
      unfold Rdiv. rewrite Rmult_assoc, Rinv_l by lra. lra. }
  set (q := rs_ / max r 1e-3) in *.
  assert (Hy : 0.0001 <= max (1 - q) 0.0001 < 1)
    by (max_cases (1 - q) 0.0001; lra).
  split.
  - rewrite <- sqrt_1_10000. apply sqrt_le_1; lra.
  - rewrite <- sqrt_1 at 2. apply sqrt_lt_1; lra.
Qed.

Lemma redshift_at_floor (rs_ r : R) :
  1e-3 <= rs_ -> rs_ < r -> r <= rs_ / 0.9999 ->
  redshift rs_ r = Some 0.01.
Proof.
  intros Hrs Hr Hnear. unfold redshift.
  assert (Hm : max r 1e-3 = r) by (max_cases r 1e-3; lra).
  rewrite Hm, fdiv_some by lra. cbn [bind ret].
  assert (Hq : 0.9999 <= rs_ / r).
  { apply (Rmult_le_reg_r r); [lra |].
    unfold Rdiv at 1. rewrite Rmult_assoc, Rinv_l by lra.
    assert (r * 0.9999 <= rs_); [| lra].
    apply (Rmult_le_reg_r (/ 0.9999)); [lra |]. lra. }
  assert (Hy : max (1 - rs_ / r) 0.0001 = 0.0001)
    by (max_cases (1 - rs_ / r) 0.0001; lra).
  rewrite Hy, sqrt_1_10000. reflexivity.
Qed.

(** C4, the claim as written fails: with [rs = 1] the redshift factor
    does not tend to 0 as [r] decreases to [rs]; the clamp keeps it at or
    above 0.01. *)
Lemma redshift_does_not_vanish : ~ tends_from_above (redshift 1) 1 0.
Proof.
  intros H. destruct (H 0.005) as [delta [Hd Hnear]]; [lra |].
  destruct (Hnear (1 + delta / 2)) as [z [Ez Hz]]; [lra |].
  destruct (redshift_floor 1 (1 + delta / 2)) as [z' [Ez' Hz']]; [lra | lra |].
  rewrite Ez in Ez'. injection Ez' as ->.
  rewrite Rminus_0_r, Rabs_right in Hz by lra. lra.
Qed.

(** C4, amended.  For [rs > 0] the redshift factor is defined for every
    [r > rs] and lies in [0.01, 1), so strictly between 0 and 1; as [r]
    decreases to [rs] (for [rs >= 1e-3]) it tends to the floor 0.01 of
    the clamp, not to 0. *)
Theorem redshift_between_floor_and_one :
  forall rs_ : R, 0 < rs_ ->
    (forall r : R, rs_ < r ->
       exists z : R, redshift rs_ r = Some z /\ 0.01 <= z < 1) /\
    (1e-3 <= rs_ -> tends_from_above (redshift rs_) rs_ 0.01).
Proof.
  intros rs_ Hrs. split.
  - intros r Hr. apply redshift_floor; assumption.
  - intros Hbig eps Heps. exists (rs_ / 0.9999 - rs_).
    split; [lra |].
    intros r Hr. exists 0.01. split.
    + apply redshift_at_floor; lra.
    + rewrite Rminus_diag, Rabs_R0. assumption.
Qed.

Lemma redshift_between_floor_and_one_witness :
  (forall r : R, 1 < r ->
     exists z : R, redshift 1 r = Some z /\ 0.01 <= z < 1) /\
  tends_from_above (redshift 1) 1 0.01.
Proof.
  split.
  - apply (redshift_between_floor_and_one 1). lra.
  - apply (redshift_between_floor_and_one 1); lra.
Defined.

(** ** Vectors: lengths and normalisation *)

Lemma dot_self_nonneg (a : vec3) : 0 <= dot a a.
Proof. unfold dot. nra. Qed.

Lemma length_sqr (a : vec3) : length a * length a = dot a a.
Proof. unfold length. apply sqrt_sqrt, dot_self_nonneg. Qed.

Lemma unit_dot (a : vec3) : length a = 1 -> dot a a = 1.
Proof. intros H. rewrite <- length_sqr, H. lra. Qed.

Lemma normalize_some (a : vec3) :
  length a <> 0 ->
  normalize a = Some (mk3 (vx a / length a) (vy a / length a) (vz a / length a)).
Proof. intros H. unfold normalize. rewrite !fdiv_some by assumption. reflexivity. Qed.

Lemma normalize_zero (a : vec3) : length a = 0 -> normalize a = None.
Proof. intros H. unfold normalize. rewrite (fdiv_zero _ _ H). reflexivity. Qed.

Lemma normalized_dot (a : vec3) :
  length a <> 0 ->
  dot (mk3 (vx a / length a) (vy a / length a) (vz a / length a))
      (mk3 (vx a / length a) (vy a / length a) (vz a / length a)) = 1.
Proof.
  intros H. pose proof (length_sqr a) as L. unfold dot in *. cbn [vx vy vz].
  set (l := length a) in *.
  replace (vx a / l * (vx a / l) + vy a / l * (vy a / l) + vz a / l * (vz a / l))
    with ((vx a * vx a + vy a * vy a + vz a * vz a) / (l * l)) by (field; assumption).
  rewrite <- L. field. assumption.
Qed.

(** Cauchy-Schwarz for directions: the cosine of two unit vectors. *)
Lemma dot_unit_bounds (a b : vec3) :
  dot a a = 1 -> dot b b = 1 -> -1 <= dot a b <= 1.
Proof.
  destruct a as [a1 a2 a3], b as [b1 b2 b3]. unfold dot. cbn [vx vy vz].
  intros Ha Hb.
  assert (H : (a1 * b1 + a2 * b2 + a3 * b3) * (a1 * b1 + a2 * b2 + a3 * b3) <= 1).
  { assert (E : (a1 * b1 + a2 * b2 + a3 * b3) * (a1 * b1 + a2 * b2 + a3 * b3)
                = (a1 * a1 + a2 * a2 + a3 * a3) * (b1 * b1 + b2 * b2 + b3 * b3)
                  - ((a2 * b3 - a3 * b2) * (a2 * b3 - a3 * b2)
                     + (a3 * b1 - a1 * b3) * (a3 * b1 - a1 * b3)
                     + (a1 * b2 - a2 * b1) * (a1 * b2 - a2 * b1))) by ring.
    rewrite E, Ha, Hb.
    pose proof (Rle_0_sqr (a2 * b3 - a3 * b2)).
    pose proof (Rle_0_sqr (a3 * b1 - a1 * b3)).
    pose proof (Rle_0_sqr (a1 * b2 - a2 * b1)).
    unfold Rsqr in *. lra. }
  nra.
Qed.

Lemma dot_vneg_r (a b : vec3) : dot a (vneg b) = - dot a b.
Proof. unfold dot, vneg. cbn [vx vy vz]. ring. Qed.

(** ** The disk shader *)

Lemma pow_unit_interval (t y : R) :
  0 <= t <= 1 -> 0 < y -> exists e : R, pow t y = Some e /\ 0 <= e <= 1.
Proof.
  intros Ht Hy. destruct (Req_dec_T t 0) as [-> | Hnz].
  - exists 0. split; [apply pow_zero_base; assumption | lra].
  - exists (Rpower t y). split; [apply pow_pos_base; lra |].
    split; [left; apply Rpower_pos |].
    unfold Rpower. rewrite <- exp_0.
    destruct (Req_dec_T t 1) as [-> | Hn1].
    + rewrite ln_1, Rmult_0_r. lra.
    + left. apply exp_increasing.
      assert (ln t < ln 1) by (apply ln_increasing; lra).
      rewrite ln_1 in *. nra.
Qed.

Lemma mix_nonneg (x y a : R) : 0 <= x -> 0 <= y -> 0 <= a <= 1 -> 0 <= mix x y a.
Proof. intros Hx Hy Ha. unfold mix. nra. Qed.

Lemma tangential_length (pos : vec3) :
  length (mk3 (- vz pos) 0 (vx pos)) = length2 (xz pos).
Proof.
  unfold length, length2, dot, xz. cbn [vx vy vz ux uy]. f_equal. ring.
Qed.

(** C7.  With [0 < diskInner < diskOuter] and a unit view direction, the
    disk shader returns the zero color for a point whose radial distance
    [r = |p.xz|] is below [diskInner] or above [diskOuter], and a color
    with non-negative channels for a point of the annulus.  (The shader
    does not read [p.y], so this holds off the plane too.) *)
Theorem diskColor_zero_outside_nonneg_inside :
  forall (u : uniforms) (pos dir : vec3),
    0 < diskInner u < diskOuter u -> length dir = 1 ->
    (length2 (xz pos) < diskInner u \/ diskOuter u < length2 (xz pos) ->
       diskColor u pos dir = Some (mk3 0 0 0)) /\
    (diskInner u <= length2 (xz pos) <= diskOuter u ->
       exists c : vec3, diskColor u pos dir = Some c /\
         0 <= vx c /\ 0 <= vy c /\ 0 <= vz c).
Proof.
  intros u pos dir Hd Hdir. unfold diskColor.
  set (r := length2 (xz pos)). split.
  - intros [Hlo | Hhi].
    + rewrite (ltb_true _ _ Hlo). reflexivity.
    + rewrite (ltb_true _ _ Hhi), Bool.orb_true_r. reflexivity.
  - intros Hr.
    rewrite (ltb_false r (diskInner u)), (ltb_false (diskOuter u) r) by lra.
    cbn [orb]. rewrite fdiv_some by lra. cbn [bind].
    assert (Hl : length (mk3 (- vz pos) 0 (vx pos)) <> 0)
      by (rewrite tangential_length; fold r; lra).
    rewrite (normalize_some _ Hl). cbn [bind].
    set (tangential := mk3 _ _ _).
    set (v := clamp (sqrt (rs u / (2 * r))) 0 0.6).
    assert (Hv : 0 <= v <= 0.6) by (apply clamp_bounds; lra).
    assert (Hc : -1 <= dot tangential (vneg dir) <= 1).
    { rewrite dot_vneg_r.
      pose proof (dot_unit_bounds tangential dir (normalized_dot _ Hl) (unit_dot _ Hdir)).
      lra. }
    destruct (doppler_value v _ Hv Hc) as [Hq ->]. cbn [bind].
    set (D := Rpower _ (-3)).
    assert (HD : 0 < D) by apply Rpower_pos.
    rewrite fdiv_some by lra. cbn [bind].
    set (t := clamp _ 0 1).
    assert (Ht : 0 <= t <= 1) by (apply clamp_bounds; lra).
    destruct (pow_unit_interval t 0.6 Ht) as [e [-> He]]; [lra |]. cbn [bind ret].
    eexists; split; [reflexivity |].
    cbn [vscale mix3 vx vy vz].
    pose proof (mix_nonneg 0.8 1 e) as M1.
    pose proof (mix_nonneg 0.4 0.95 e) as M2.
    pose proof (mix_nonneg 0.1 0.85 e) as M3.
    repeat split;
      (apply Rmult_le_pos; [apply Rmult_le_pos; [| lra] | lra]);
      [apply M1 | apply M2 | apply M3]; lra.
Qed.

Lemma length2_3_4 : length2 (xz (mk3 3 0 4)) = 5.
Proof. unfold length2, xz. cbn [ux uy vx vz]. apply sqrt_lem_1; lra. Qed.

Lemma length2_9_0 : length2 (xz (mk3 9 0 0)) = 9.
Proof. unfold length2, xz. cbn [ux uy vx vz]. apply sqrt_lem_1; lra. Qed.

Lemma length_0_0_m1 : length (mk3 0 0 (-1)) = 1.
Proof. unfold length, dot. cbn [vx vy vz]. apply sqrt_lem_1; lra. Qed.

Lemma diskColor_zero_outside_nonneg_inside_witness :
  diskColor (defaults 800 600) (mk3 9 0 0) (mk3 0 0 (-1)) = Some (mk3 0 0 0) /\
  exists c : vec3,
    diskColor (defaults 800 600) (mk3 3 0 4) (mk3 0 0 (-1)) = Some c /\
    0 <= vx c /\ 0 <= vy c /\ 0 <= vz c.
Proof.
  split.
  - apply (diskColor_zero_outside_nonneg_inside (defaults 800 600) (mk3 9 0 0) (mk3 0 0 (-1))).
    + cbn. lra.
    + exact length_0_0_m1.
    + right. rewrite length2_9_0. cbn. lra.
  - apply (diskColor_zero_outside_nonneg_inside (defaults 800 600) (mk3 3 0 4) (mk3 0 0 (-1))).
    + cbn. lra.
    + exact length_0_0_m1.
    + rewrite length2_3_4. cbn. lra.
Defined.

(** ** The ray bender: capture *)

Lemma bendRay_captured (ro rd : vec3) (rs_local : R) :
  length (cross ro rd) < bc_of rs_local -> bendRay ro rd rs_local = Some (rd, 1).
Proof. intros H. unfold bendRay. rewrite (ltb_true _ _ H). reflexivity. Qed.

Lemma bendRay_escapes (ro rd : vec3) (rs_local : R) :
  0 < rs_local -> bc_of rs_local <= length (cross ro rd) ->
  bendRay ro rd rs_local =
    Some (rotateAround rd
            (mk3 (vx (cross ro rd) / length (cross ro rd))
                 (vy (cross ro rd) / length (cross ro rd))
                 (vz (cross ro rd) / length (cross ro rd)))
            (2 * rs_local / max (length (cross ro rd)) 1e-5), 0).
Proof.
  intros Hrs Hb. unfold bendRay. rewrite (ltb_false _ _ Hb).
  unfold bc_of in Hb.
  assert (Hm : length (cross ro rd) <= max (length (cross ro rd)) 1e-5)
    by (max_cases (length (cross ro rd)) 1e-5; lra).
  rewrite fdiv_some by lra. cbn [bind].
  rewrite normalize_some by lra. reflexivity.
Qed.

(** The shader's decimal lies just below the analytic value. *)
Lemma bc_literal_below_exact : 2.59807621135 < 3 * sqrt 3 / 2.
Proof.
  assert (H : sqrt (1.732050807568 * 1.732050807568) < sqrt 3) by (apply sqrt_lt_1; lra).
  rewrite sqrt_square in H by lra. lra.
Qed.

Lemma length_cross_x_axis (b : R) :
  0 <= b -> length (cross (mk3 b 0 0) (mk3 0 0 (-1))) = b.
Proof.
  intros H. unfold length, cross, dot. cbn [vx vy vz]. apply sqrt_lem_1; nra.
Qed.




Lemma length_cross_center : length (cross (mk3 0 0 8) (mk3 0 0 (-1))) = 0.
Proof.
  unfold length, cross, dot. cbn [vx vy vz].
  replace ((0 * -1 - 8 * 0) * (0 * -1 - 8 * 0) + (8 * 0 - 0 * -1) * (8 * 0 - 0 * -1)
           + (0 * 0 - 0 * 0) * (0 * 0 - 0 * 0)) with 0 by ring.
  apply sqrt_0.
Qed.


(** ** The captured branch *)

Lemma smoothstep_unit (e0 e1 x : R) :
  e0 <> e1 -> exists s : R, smoothstep e0 e1 x = Some s /\ 0 <= s <= 1.
Proof.
  intros H. unfold smoothstep. rewrite fdiv_some by lra. cbn [bind ret].
  eexists; split; [reflexivity |].
  assert (B : 0 <= clamp ((x - e0) / (e1 - e0)) 0 1 <= 1) by (apply clamp_bounds; lra).
  set (t := clamp _ 0 1) in *.
  assert (H0 : 0 <= t * t) by nra.
  assert (H1 : 0 <= (1 - t) * (1 - t)) by nra.
  split; [nra |].
  assert (E : 1 - t * t * (3 - 2 * t) = (1 - t) * (1 - t) * (1 + 2 * t)) by ring.
  assert (0 <= (1 - t) * (1 - t) * (1 + 2 * t)) by (apply Rmult_le_pos; lra).
  lra.
Qed.

Lemma shadow_black (ro rd : vec3) (rs_ : R) :
  0 < rs_ ->
  exists a : R, shadow ro rd rs_ = Some (mk4 0 0 0 a) /\ 0.94 <= a <= 1.
Proof.
  intros Hrs. unfold shadow, bc_of.
  destruct (smoothstep_unit (2.59807621135 * rs_ * 0.9) (2.59807621135 * rs_ * 1.05)
              (length (cross ro rd))) as [e [-> He]]; [lra |].
  cbn [bind ret]. exists (1 - (1 - e) * 0.06). split; [| lra].
  rewrite !Rmult_0_l, Rmult_1_l. reflexivity.
Qed.

(** C5.  What the shader does on a captured pixel: the red, green and
    blue channels it writes are exactly 0 whatever the impact parameter
    is; the smoothstep factor reaches the alpha channel only, which lies
    in [0.94, 1]. *)
Theorem captured_pixel_is_constant_black :
  forall (u : uniforms) (uv : vec2) (rd rd2 : vec3),
    0 < rs u ->
    normalize (mk3 (ux uv) (uy uv) (-1.5)) = Some rd ->
    bendRay (mk3 0 0 (camDistance u)) rd (rs u) = Some (rd2, 1) ->
    exists a : R, shade u uv = Some (mk4 0 0 0 a) /\ 0.94 <= a <= 1.
Proof.
  intros u uv rd rd2 Hrs Hn Hb. unfold shade.
  rewrite Hn. cbn [bind]. rewrite Hb. cbn [bind fst snd].
  rewrite ltb_true by lra. apply shadow_black. assumption.
Qed.

Lemma center_camera_ray : normalize (mk3 0 0 (-1.5)) = Some (mk3 0 0 (-1)).
Proof.
  assert (L : length (mk3 0 0 (-1.5)) = 1.5)
    by (unfold length, dot; cbn [vx vy vz]; apply sqrt_lem_1; lra).
  rewrite normalize_some by lra. rewrite L. cbn [vx vy vz].
  do 2 f_equal; lra.
Qed.

Lemma center_ray_captured :
  bendRay (mk3 0 0 8) (mk3 0 0 (-1)) 1 = Some (mk3 0 0 (-1), 1).
Proof. apply bendRay_captured. rewrite length_cross_center. unfold bc_of. lra. Qed.

Lemma captured_pixel_is_constant_black_witness :
  exists a : R,
    shade (defaults 800 600) (mk2 0 0) = Some (mk4 0 0 0 a) /\ 0.94 <= a <= 1.
Proof.
  apply (captured_pixel_is_constant_black (defaults 800 600) (mk2 0 0)
           (mk3 0 0 (-1)) (mk3 0 0 (-1))).
  - cbn. lra.
  - exact center_camera_ray.
  - exact center_ray_captured.
Defined.

(** ** The disk intersector *)

Lemma length_grazing : length (mk3 0 (- 1e-6) (- sqrt (1 - 1e-12))) = 1.
Proof.
  unfold length, dot. cbn [vx vy vz].
  replace (0 * 0 + - 1e-6 * - 1e-6 + - sqrt (1 - 1e-12) * - sqrt (1 - 1e-12))
    with (1e-12 + sqrt (1 - 1e-12) * sqrt (1 - 1e-12)) by lra.
  rewrite sqrt_sqrt by lra.
  replace (1e-12 + (1 - 1e-12)) with 1 by lra. apply sqrt_1.
Qed.

(** C6.  The denominator of the disk intersector vanishes on a unit
    direction: for [d = (0, -1e-6, -sqrt(1 - 1e-12))] the sum
    [d.y + 1e-6] is 0, the quotient has no defined value, and neither
    has the result of [intersectDisk], whatever the origin. *)
Theorem intersectDisk_denominator_vanishes :
  length (mk3 0 (- 1e-6) (- sqrt (1 - 1e-12))) = 1 /\
  vy (mk3 0 (- 1e-6) (- sqrt (1 - 1e-12))) + 1e-6 = 0 /\
  forall ro : vec3, intersectDisk ro (mk3 0 (- 1e-6) (- sqrt (1 - 1e-12))) = None.
Proof.
  split; [exact length_grazing |].
  split; [cbn [vy]; lra |].
  intros ro. unfold intersectDisk. rewrite fdiv_zero; [reflexivity |].
  cbn [vy]. lra.
Qed.

(** ** The ray bender: deflection *)

(** Rodrigues' rotation of a unit vector [d] about a unit axis [k]
    perpendicular to it. *)
Lemma rotate_perp (d k : vec3) (a : R) :
  dot d d = 1 -> dot k k = 1 -> dot k d = 0 ->
  dot (rotateAround d k a) (rotateAround d k a) = 1 /\
  dot d (rotateAround d k a) = cos a /\
  dot (rotateAround d k a) (cross k d) = sin a /\
  dot (cross k d) (cross k d) = 1.
Proof.
  intros Hd Hk Hkd.
  pose proof (sin2_cos2 a) as Hsc. unfold Rsqr in Hsc.
  unfold rotateAround. rewrite Hkd.
  set (c := cos a) in *. set (s := sin a) in *.
  destruct d as [d1 d2 d3], k as [k1 k2 k3].
  unfold dot, cross, vadd, vscale in *. cbn [vx vy vz] in *.
  set (dd := d1 * d1 + d2 * d2 + d3 * d3) in *.
  set (kk := k1 * k1 + k2 * k2 + k3 * k3) in *.
  set (kd := k1 * d1 + k2 * d2 + k3 * d3) in *.
  assert (L : (k2 * d3 - k3 * d2) * (k2 * d3 - k3 * d2)
              + (k3 * d1 - k1 * d3) * (k3 * d1 - k1 * d3)
              + (k1 * d2 - k2 * d1) * (k1 * d2 - k2 * d1) = kk * dd - kd * kd)
    by (unfold kk, dd, kd; ring).
  rewrite Hd, Hk, Hkd in L.
  set (n1 := k2 * d3 - k3 * d2) in *.
  set (n2 := k3 * d1 - k1 * d3) in *.
  set (n3 := k1 * d2 - k2 * d1) in *.
  assert (O : d1 * n1 + d2 * n2 + d3 * n3 = 0) by (unfold n1, n2, n3; ring).
  repeat split.
  - transitivity (c * c * dd + s * s * (n1 * n1 + n2 * n2 + n3 * n3)
                  + 2 * c * s * (d1 * n1 + d2 * n2 + d3 * n3));
      [unfold dd; ring | rewrite Hd, L, O; lra].
  - transitivity (c * dd + s * (d1 * n1 + d2 * n2 + d3 * n3));
      [unfold dd; ring | rewrite Hd, O; lra].
  - transitivity (c * (d1 * n1 + d2 * n2 + d3 * n3)
                  + s * (n1 * n1 + n2 * n2 + n3 * n3));
      [ring | rewrite L, O; lra].
  - rewrite L. ring.
Qed.

(** The normalised [o x d] is perpendicular to [d], and its cross product
    with [d] points from the ray's nearest point to the origin. *)
Lemma axis_perp (o d : vec3) (b : R) :
  b <> 0 ->
  dot (mk3 (vx (cross o d) / b) (vy (cross o d) / b) (vz (cross o d) / b)) d = 0.
Proof.
  intros Hb. destruct o as [o1 o2 o3], d as [d1 d2 d3].
  unfold dot, cross. cbn [vx vy vz]. field. assumption.
Qed.

Lemma axis_cross (o d : vec3) (b : R) :
  b <> 0 -> dot d d = 1 ->
  cross (mk3 (vx (cross o d) / b) (vy (cross o d) / b) (vz (cross o d) / b)) d
  = toward_hole o d b.
Proof.
  intros Hb Hd. destruct o as [o1 o2 o3], d as [d1 d2 d3].
  unfold toward_hole, dot, cross, vadd, vscale, vneg in *. cbn [vx vy vz] in *.
  assert (E : forall x : R, - x = - (x * (d1 * d1 + d2 * d2 + d3 * d3)))
    by (intros x; rewrite Hd; ring).
  f_equal.
  - rewrite (E o1). field. assumption.
  - rewrite (E o2). field. assumption.
  - rewrite (E o3). field. assumption.
Qed.

Lemma toward_hole_perp (o d : vec3) (b : R) :
  dot d d = 1 -> dot d (toward_hole o d b) = 0.
Proof.
  intros Hd. destruct o as [o1 o2 o3], d as [d1 d2 d3].
  unfold toward_hole, dot, vadd, vscale, vneg in *. cbn [vx vy vz] in *.
  transitivity (((d1 * d1 + d2 * d2 + d3 * d3) - 1) * (o1 * d1 + o2 * d2 + o3 * d3) * / b);
    [ring | rewrite Hd; ring].
Qed.

Lemma deflection_small (rs_ b : R) :
  0 < rs_ -> bc_of rs_ <= b -> 0 < 2 * rs_ / max b 1e-5 < 1.
Proof.
  intros Hrs Hb. unfold bc_of in Hb.
  assert (Hm : b <= max b 1e-5 /\ 0 < max b 1e-5)
    by (max_cases b 1e-5; lra).
  destruct Hm as [Hm Hp]. split.
  - apply Rdiv_lt_0_compat; lra.
  - apply (Rmult_lt_reg_r (max b 1e-5)); [assumption |].
    unfold Rdiv. rewrite Rmult_assoc, Rinv_l by lra. lra.
Qed.

Lemma PI_gt_3 : 3 < PI.
Proof. pose proof PI2_3_2. lra. Qed.

(** What the ray bender returns on a ray that escapes. *)
Lemma bendRay_deflects (o d : vec3) (rs_ : R) :
  0 < rs_ -> length d = 1 -> bc_of rs_ <= length (cross o d) ->
  exists axis d' : vec3,
    normalize (cross o d) = Some axis /\
    bendRay o d rs_ = Some (d', 0) /\
    d' = rotateAround d axis (2 * rs_ / max (length (cross o d)) 1e-5) /\
    length d' = 1 /\
    angle d d' = 2 * rs_ / max (length (cross o d)) 1e-5 /\
    length (toward_hole o d (length (cross o d))) = 1 /\
    dot d (toward_hole o d (length (cross o d))) = 0 /\
    0 < dot d' (toward_hole o d (length (cross o d))).
Proof.
  intros Hrs Hd Hb.
  pose proof (deflection_small rs_ _ Hrs Hb) as Ha.
  set (b := length (cross o d)) in *.
  set (a := 2 * rs_ / max b 1e-5) in *.
  assert (Hb0 : b <> 0) by (unfold bc_of in Hb; lra).
  pose proof (unit_dot d Hd) as Hdd.
  set (k := mk3 (vx (cross o d) / b) (vy (cross o d) / b) (vz (cross o d) / b)).
  destruct (rotate_perp d k a Hdd (normalized_dot _ Hb0) (axis_perp o d b Hb0))
    as [R1 [R2 [R3 R4]]].
  unfold k in R3, R4. rewrite (axis_cross o d b Hb0 Hdd) in R3, R4. fold k in R3.
  exists k, (rotateAround d k a).
  split; [apply normalize_some; assumption |].
  split; [apply bendRay_escapes; assumption |].
  split; [reflexivity |].
  split; [unfold length; rewrite R1; apply sqrt_1 |].
  split.
  { unfold angle. rewrite R2. apply acos_cos. pose proof PI_gt_3. lra. }
  split; [unfold length; rewrite R4; apply sqrt_1 |].
  split; [apply toward_hole_perp; assumption |].
  rewrite R3. apply sin_gt_0; [lra | pose proof PI_gt_3; lra].
Qed.

Lemma exact_threshold_escapes (rs_ b : R) :
  0 < rs_ -> 3 * sqrt 3 / 2 * rs_ <= b -> bc_of rs_ <= b.
Proof.
  intros Hrs Hb. unfold bc_of. pose proof bc_literal_below_exact. nra.
Qed.

Lemma sqrt3_lt_2 : sqrt 3 < 2.
Proof.
  assert (H : sqrt 3 < sqrt (2 * 2)) by (apply sqrt_lt_1; lra).
  rewrite sqrt_square in H by lra. exact H.
Qed.

Lemma length_cross_tiny : length (cross (mk3 3e-6 0 0) (mk3 0 0 (-1))) = 3e-6.
Proof. apply length_cross_x_axis. lra. Qed.

(** C2, the claim as written fails: with [rs = 1e-6] the ray from
    (3e-6, 0, 0) along (0, 0, -1) has [b = 3e-6], above (3*sqrt(3)/2) * rs,
    and the ray bender turns it by 2e-6 / max(3e-6, 1e-5) = 0.2, not by
    2 * rs / b = 2/3. *)
Lemma bendRay_angle_differs_for_tiny_impact :
  0 < 1e-6 /\
  length (mk3 0 0 (-1)) = 1 /\
  3 * sqrt 3 / 2 * 1e-6 <= length (cross (mk3 3e-6 0 0) (mk3 0 0 (-1))) /\
  exists d' : vec3,
    bendRay (mk3 3e-6 0 0) (mk3 0 0 (-1)) 1e-6 = Some (d', 0) /\
    angle (mk3 0 0 (-1)) d' = 0.2 /\
    angle (mk3 0 0 (-1)) d' <> 2 * 1e-6 / length (cross (mk3 3e-6 0 0) (mk3 0 0 (-1))).
Proof.
  split; [lra |].
  split; [exact length_0_0_m1 |].
  split; [rewrite length_cross_tiny; pose proof sqrt3_lt_2; lra |].
  destruct (bendRay_deflects (mk3 3e-6 0 0) (mk3 0 0 (-1)) 1e-6)
    as [axis [d' [_ [Hb [_ [_ [Ha _]]]]]]].
  - lra.
  - exact length_0_0_m1.
  - rewrite length_cross_tiny. unfold bc_of. lra.
  - exists d'. split; [exact Hb |]. rewrite length_cross_tiny in *.
    assert (Hm : max 3e-6 1e-5 = 1e-5)
      by (max_cases 3e-6 1e-5; lra).
    rewrite Hm in Ha. rewrite Ha. split; lra.
Qed.

(** C2, amended.  For [rs > 0], a unit direction [d] and an origin [o]
    whose impact parameter [b = |o x d|] is at least (3*sqrt(3)/2) * rs,
    the ray bender returns capture = 0 and the Rodrigues rotation of [d]
    about [normalize(o x d)]: a unit direction at angle
    [2 * rs / max(b, 1e-5)] from [d], which is [2 * rs / b] when
    [b >= 1e-5], with a positive component along the unit vector that
    points from the ray's nearest point to the black hole. *)
Theorem bendRay_deflection_angle :
  forall (o d : vec3) (rs_ : R),
    0 < rs_ -> length d = 1 ->
    3 * sqrt 3 / 2 * rs_ <= length (cross o d) ->
    exists axis d' : vec3,
      normalize (cross o d) = Some axis /\
      bendRay o d rs_ = Some (d', 0) /\
      d' = rotateAround d axis (2 * rs_ / max (length (cross o d)) 1e-5) /\
      length d' = 1 /\
      angle d d' = 2 * rs_ / max (length (cross o d)) 1e-5 /\
      (1e-5 <= length (cross o d) -> angle d d' = 2 * rs_ / length (cross o d)) /\
      length (toward_hole o d (length (cross o d))) = 1 /\
      dot d (toward_hole o d (length (cross o d))) = 0 /\
      0 < dot d' (toward_hole o d (length (cross o d))).
Proof.
  intros o d rs_ Hrs Hd Hb.
  destruct (bendRay_deflects o d rs_ Hrs Hd (exact_threshold_escapes _ _ Hrs Hb))
    as [axis [d' [H1 [H2 [H3 [H4 [H5 [H6 [H7 H8]]]]]]]]].
  exists axis, d'. repeat (split; [assumption |]).
  split; [| repeat split; assumption].
  intros Hbig. rewrite H5. f_equal.
  max_cases (length (cross o d)) 1e-5; lra.
Qed.

Lemma length_cross_3 : length (cross (mk3 3 0 0) (mk3 0 0 (-1))) = 3.
Proof. apply length_cross_x_axis. lra. Qed.

Lemma bendRay_deflection_angle_witness :
  exists axis d' : vec3,
    normalize (cross (mk3 3 0 0) (mk3 0 0 (-1))) = Some axis /\
    bendRay (mk3 3 0 0) (mk3 0 0 (-1)) 1 = Some (d', 0) /\
    d' = rotateAround (mk3 0 0 (-1)) axis
           (2 * 1 / max (length (cross (mk3 3 0 0) (mk3 0 0 (-1)))) 1e-5) /\
    length d' = 1 /\
    angle (mk3 0 0 (-1)) d'
      = 2 * 1 / max (length (cross (mk3 3 0 0) (mk3 0 0 (-1)))) 1e-5 /\
    (1e-5 <= length (cross (mk3 3 0 0) (mk3 0 0 (-1))) ->
       angle (mk3 0 0 (-1)) d' = 2 * 1 / length (cross (mk3 3 0 0) (mk3 0 0 (-1)))) /\
    length (toward_hole (mk3 3 0 0) (mk3 0 0 (-1))
              (length (cross (mk3 3 0 0) (mk3 0 0 (-1))))) = 1 /\
    dot (mk3 0 0 (-1))
        (toward_hole (mk3 3 0 0) (mk3 0 0 (-1))
           (length (cross (mk3 3 0 0) (mk3 0 0 (-1))))) = 0 /\
    0 < dot d' (toward_hole (mk3 3 0 0) (mk3 0 0 (-1))
                  (length (cross (mk3 3 0 0) (mk3 0 0 (-1))))).
Proof.
  apply (bendRay_deflection_angle (mk3 3 0 0) (mk3 0 0 (-1)) 1).
  - lra.
  - exact length_0_0_m1.
  - rewrite length_cross_3. pose proof sqrt3_lt_2. lra.
Defined.

(** ** The disk stage of [main] *)

Lemma intersectDisk_camera (cam : R) (d : vec3) :
  vy d + 1e-6 <> 0 ->
  fdiv (- vy (mk3 0 0 cam)) (vy d + 1e-6) = Some 0 /\
  intersectDisk (mk3 0 0 cam) d = Some None.
Proof.
  intros H.
  assert (E : fdiv (- vy (mk3 0 0 cam)) (vy d + 1e-6) = Some 0).
  { rewrite fdiv_some by assumption. cbn [vy]. f_equal.
    unfold Rdiv. rewrite Ropp_0. apply Rmult_0_l. }
  split; [exact E |].
  unfold intersectDisk. rewrite E. cbn [bind].
  rewrite leb_true by lra. reflexivity.
Qed.

Lemma intersectDisk_camera_never_hits (cam : R) (d hit : vec3) :
  intersectDisk (mk3 0 0 cam) d <> Some (Some hit).
Proof.
  destruct (Req_dec_T (vy d + 1e-6) 0) as [Z | NZ].
  - unfold intersectDisk. rewrite (fdiv_zero _ _ Z). discriminate.
  - destruct (intersectDisk_camera cam d NZ) as [_ ->]. discriminate.
Qed.

(** With no hit possible, [main] skips the disk stage. *)
Lemma shade_skips_disk (u : uniforms) (uv : vec2) :
  (forall (rd : vec3) (bent : vec3 * R),
     normalize (mk3 (ux uv) (uy uv) (-1.5)) = Some rd ->
     bendRay (mk3 0 0 (camDistance u)) rd (rs u) = Some bent ->
     vy (fst bent) + 1e-6 <> 0) ->
  shade u uv = shadeNoDisk u uv.
Proof.
  intros H. unfold shade, shadeNoDisk.
  destruct (normalize (mk3 (ux uv) (uy uv) (-1.5))) as [rd |] eqn:En;
    [| reflexivity].
  cbn [bind].
  destruct (bendRay (mk3 0 0 (camDistance u)) rd (rs u)) as [bent |] eqn:Eb;
    [| reflexivity].
  cbn [bind].
  destruct (ltb 0.5 (snd bent)); [reflexivity |].
  destruct (starfield (fst bent)) as [bg |]; [| reflexivity].
  cbn [bind].
  destruct (intersectDisk_camera (camDistance u) (fst bent) (H rd bent eq_refl Eb))
    as [_ ->].
  reflexivity.
Qed.

(** ** Where the shader has a defined result *)

Lemma normalize_inv (a n : vec3) :
  normalize a = Some n ->
  length a <> 0 /\
  n = mk3 (vx a / length a) (vy a / length a) (vz a / length a).
Proof.
  intros H. destruct (Req_dec_T (length a) 0) as [Z | NZ].
  - rewrite (normalize_zero _ Z) in H. discriminate.
  - rewrite (normalize_some _ NZ) in H. injection H as <-.
    split; [assumption | reflexivity].
Qed.

Lemma camera_ray_unit (x y : R) :
  exists rd : vec3, normalize (mk3 x y (-1.5)) = Some rd /\ length rd = 1.
Proof.
  assert (H : length (mk3 x y (-1.5)) <> 0).
  { unfold length, dot. cbn [vx vy vz].
    assert (0 < sqrt (x * x + y * y + -1.5 * -1.5)); [apply sqrt_lt_R0; nra | lra]. }
  eexists. split; [apply normalize_some; exact H |].
  unfold length at 1. rewrite (normalized_dot _ H). apply sqrt_1.
Qed.

Lemma fract_range (x : R) : 0 <= fract x < 1.
Proof.
  unfold fract, floor. destruct (base_fp x) as [H0 H1].
  unfold frac_part in *. lra.
Qed.

Lemma hash13_range (p : vec3) : 0 <= hash13 p < 1.
Proof. unfold hash13. apply fract_range. Qed.

Lemma starfield_defined (dir : vec3) :
  length dir = 1 ->
  exists c : vec3, starfield dir = Some c /\ 0 <= vx c /\ 0 <= vy c /\ 0 <= vz c.
Proof.
  intros H. unfold starfield.
  rewrite normalize_some by lra. cbn [bind].
  set (p := vscale _ 123).
  destruct (smoothstep_unit 0.995 1 (hash13 (floor3 (vscale p 20)))) as [d [-> Hd]];
    [lra |].
  cbn [bind].
  destruct (pow_unit_interval d 24 Hd) as [m [-> Hm]]; [lra |].
  cbn [bind ret]. eexists; split; [reflexivity |].
  pose proof (hash13_range (vadds p 1)).
  pose proof (hash13_range (vadds p 2)).
  pose proof (hash13_range (floor3 (vscale dir 10))).
  cbn [vadd vscale vx vy vz]. repeat split; nra.
Qed.

Lemma finish_defined (ro rd : vec3) (rs_ : R) (uv : vec2) (col : vec3) :
  0 <= vx col -> 0 <= vy col -> 0 <= vz col ->
  exists c : vec4, finish ro rd rs_ uv col = Some c.
Proof.
  intros Hx Hy Hz. unfold finish.
  destruct (smoothstep_unit 1.4 0.1 (length2 uv)) as [vig [-> Hv]]; [lra |].
  cbn [bind].
  set (ring := exp _).
  assert (Hr : 0 < ring) by apply exp_pos.
  assert (Hm : 0 <= mix 0.6 1 vig) by (apply mix_nonneg; lra).
  cbn [vadd vscale vx vy vz].
  rewrite !tonemap_value; [cbn [bind ret]; eexists; reflexivity | | |];
    apply Rmult_le_pos; try assumption; nra.
Qed.

Lemma shadeNoDisk_defined (u : uniforms) (uv : vec2) :
  0 < rs u -> exists c : vec4, shadeNoDisk u uv = Some c.
Proof.
  intros Hrs. unfold shadeNoDisk.
  destruct (camera_ray_unit (ux uv) (uy uv)) as [rd [-> Hrd]]. cbn [bind].
  destruct (Rlt_le_dec (length (cross (mk3 0 0 (camDistance u)) rd)) (bc_of (rs u)))
    as [Hc | He].
  - rewrite (bendRay_captured _ _ _ Hc). cbn [bind snd].
    rewrite ltb_true by lra.
    destruct (shadow_black (mk3 0 0 (camDistance u)) rd (rs u) Hrs) as [a [-> _]].
    eexists; reflexivity.
  - destruct (bendRay_deflects _ _ _ Hrs Hrd He) as [axis [d' [_ [-> [_ [Hd' _]]]]]].
    cbn [bind fst snd]. rewrite ltb_false by lra.
    destruct (starfield_defined d' Hd') as [bg [-> [B1 [B2 B3]]]]. cbn [bind].
    apply finish_defined; assumption.
Qed.

(** On the horizontal midline of the screen the bent direction stays in
    the plane y = 0. *)
Lemma midline_bent_level (cam rs_ x : R) (rd : vec3) (bent : vec3 * R) :
  normalize (mk3 x 0 (-1.5)) = Some rd ->
  bendRay (mk3 0 0 cam) rd rs_ = Some bent ->
  vy (fst bent) = 0.
Proof.
  intros Hn Hb. apply normalize_inv in Hn. destruct Hn as [Hl ->].
  cbn [vx vy vz] in Hb. unfold bendRay in Hb.
  set (l := length (mk3 x 0 (-1.5))) in *.
  set (rd := mk3 (x / l) (0 / l) (-1.5 / l)) in *.
  assert (Hy : vy rd = 0) by (cbn [rd vy]; unfold Rdiv; ring).
  destruct (ltb _ _) in Hb.
  - injection Hb as <-. exact Hy.
  - destruct (fdiv _ _) as [alpha |] in Hb; [| discriminate]. cbn [bind] in Hb.
    destruct (normalize (cross (mk3 0 0 cam) rd)) as [axis |] eqn:Ea; [| discriminate].
    cbn [bind ret] in Hb. injection Hb as <-. cbn [fst].
    apply normalize_inv in Ea. destruct Ea as [Hb0 ->].
    set (b := length _) in *.
    unfold rotateAround, vadd, vscale, cross, dot. cbn [vx vy vz rd].
    field. split; assumption.
Qed.

Lemma midline_pixel_defined (u : uniforms) (x : R) :
  0 < rs u ->
  shade u (mk2 x 0) = shadeNoDisk u (mk2 x 0) /\
  exists c : vec4, shade u (mk2 x 0) = Some c.
Proof.
  intros Hrs.
  assert (E : shade u (mk2 x 0) = shadeNoDisk u (mk2 x 0)).
  { apply shade_skips_disk. cbn [ux uy]. intros rd bent En Eb.
    rewrite (midline_bent_level _ _ _ _ _ En Eb). lra. }
  split; [exact E |]. rewrite E. apply shadeNoDisk_defined. exact Hrs.
Qed.

(** Away from bent directions with [y = -1e-6], every operation [main]
    performs from the camera setup on is defined. *)
Lemma shade_defined (u : uniforms) (uv : vec2) :
  0 < rs u ->
  (forall (rd : vec3) (bent : vec3 * R),
     normalize (mk3 (ux uv) (uy uv) (-1.5)) = Some rd ->
     bendRay (mk3 0 0 (camDistance u)) rd (rs u) = Some bent ->
     vy (fst bent) + 1e-6 <> 0) ->
  exists c : vec4, shade u uv = Some c.
Proof.
  intros Hrs H. rewrite (shade_skips_disk u uv H).
  apply shadeNoDisk_defined. exact Hrs.
Qed.

(** ** The disk stage is dead code *)

(** C1, the claim as written fails: for the unit direction
    (0, -1e-6, -sqrt(1 - 1e-12)) and the camera origin (0, 0, 8) the
    quotient [-origin.y / (direction.y + 1e-6)] is 0 / 0, not 0, and
    [intersectDisk] does not return "no hit". *)
Lemma intersectDisk_camera_grazing_undefined :
  length (mk3 0 (- 1e-6) (- sqrt (1 - 1e-12))) = 1 /\
  fdiv (- vy (mk3 0 0 8)) (vy (mk3 0 (- 1e-6) (- sqrt (1 - 1e-12))) + 1e-6) <> Some 0 /\
  intersectDisk (mk3 0 0 8) (mk3 0 (- 1e-6) (- sqrt (1 - 1e-12))) <> Some None.
Proof.
  split; [exact length_grazing |].
  assert (Z : vy (mk3 0 (- 1e-6) (- sqrt (1 - 1e-12))) + 1e-6 = 0) by (cbn [vy]; lra).
  split.
  - rewrite (fdiv_zero _ _ Z). discriminate.
  - unfold intersectDisk. rewrite (fdiv_zero _ _ Z). discriminate.
Qed.

(** C1, amended.  With the camera origin (0, 0, camDistance):
    for every direction [d] with [d.y + 1e-6 <> 0] the disk intersector
    computes [t = 0] and returns no hit; and on every pixel whose bent
    direction [rd2] has [rd2.y + 1e-6 <> 0] the shader gives what it gives
    with the disk stage removed: starfield, photon-ring glow, vignette and
    tone map. *)
Theorem disk_stage_unreachable :
  forall u : uniforms,
    (forall d : vec3, vy d + 1e-6 <> 0 ->
       fdiv (- vy (mk3 0 0 (camDistance u))) (vy d + 1e-6) = Some 0 /\
       intersectDisk (mk3 0 0 (camDistance u)) d = Some None) /\
    (forall uv : vec2,
       (forall (rd : vec3) (bent : vec3 * R),
          normalize (mk3 (ux uv) (uy uv) (-1.5)) = Some rd ->
          bendRay (mk3 0 0 (camDistance u)) rd (rs u) = Some bent ->
          vy (fst bent) + 1e-6 <> 0) ->
       shade u uv = shadeNoDisk u uv).
Proof.
  intros u. split.
  - intros d H. apply intersectDisk_camera. exact H.
  - intros uv H. apply shade_skips_disk. exact H.
Qed.

Lemma midline_pixel_escapes :
  exists rd d' : vec3,
    normalize (mk3 0.8 0 (-1.5)) = Some rd /\
    bendRay (mk3 0 0 8) rd 1 = Some (d', 0).
Proof.
  assert (L : length (mk3 0.8 0 (-1.5)) = 1.7)
    by (unfold length, dot; cbn [vx vy vz]; apply sqrt_lem_1; lra).
  destruct (camera_ray_unit 0.8 0) as [rd [En Hu]].
  destruct (normalize_inv _ _ En) as [_ Hrd]. rewrite L in Hrd. cbn [vx vy vz] in Hrd.
  assert (B : length (cross (mk3 0 0 8) rd) = 64 / 17).
  { rewrite Hrd. unfold length, cross, dot. cbn [vx vy vz]. apply sqrt_lem_1; lra. }
  destruct (bendRay_deflects (mk3 0 0 8) rd 1) as [axis [d' [_ [Hb _]]]].
  - lra.
  - exact Hu.
  - rewrite B. unfold bc_of. lra.
  - exists rd, d'. split; assumption.
Qed.

Lemma disk_stage_unreachable_witness :
  (fdiv (- vy (mk3 0 0 8)) (vy (mk3 0 0 (-1)) + 1e-6) = Some 0 /\
   intersectDisk (mk3 0 0 8) (mk3 0 0 (-1)) = Some None) /\
  shade (defaults 800 600) (mk2 0.8 0) = shadeNoDisk (defaults 800 600) (mk2 0.8 0) /\
  exists rd d' : vec3,
    normalize (mk3 0.8 0 (-1.5)) = Some rd /\
    bendRay (mk3 0 0 8) rd 1 = Some (d', 0).
Proof.
  split; [| split].
  - apply (disk_stage_unreachable (defaults 800 600)). cbn [vy]. lra.
  - apply (disk_stage_unreachable (defaults 800 600)). cbn [ux uy].
    intros rd bent En Eb.
    rewrite (midline_bent_level _ _ _ _ _ En Eb). lra.
  - exact midline_pixel_escapes.
Defined.

(** ** Resolution *)

Lemma shade_ignores_resolution (t t' : R) (res res' : vec3) (r c i o : R) (uv : vec2) :
  shade (mkUniforms t res r c i o) uv = shade (mkUniforms t' res' r c i o) uv.
Proof. reflexivity. Qed.

Lemma main_same_ratios (t t' w h w' h' z z' r c i o : R) (p p' : vec2) :
  w <> 0 -> h <> 0 -> w' <> 0 -> h' <> 0 ->
  ux p / w = ux p' / w' -> uy p / h = uy p' / h' -> w / h = w' / h' ->
  main (mkUniforms t (mk3 w h z) r c i o) p =
  main (mkUniforms t' (mk3 w' h' z') r c i o) p'.
Proof.
  intros Hw Hh Hw' Hh' Ex Ey Ea. unfold main, screen_uv.
  cbn [iResolution vx vy].
  rewrite !fdiv_some by assumption. cbn [bind ret ux uy].
  rewrite Ex, Ey, Ea. apply shade_ignores_resolution.
Qed.

(** C10.  With the same time and physical parameters, the shader at
    resolution 800 x 600 and at resolution 1600 x 1200 gives the same
    result on pixel coordinates at the same proportional position. *)
Theorem main_invariant_800x600_1600x1200 :
  forall (t r c i o : R) (p p' : vec2),
    ux p / 800 = ux p' / 1600 -> uy p / 600 = uy p' / 1200 ->
    main (mkUniforms t (mk3 800 600 1) r c i o) p =
    main (mkUniforms t (mk3 1600 1200 1) r c i o) p'.
Proof.
  intros t r c i o p p' Ex Ey.
  apply main_same_ratios; try lra; assumption.
Qed.

Lemma main_invariant_800x600_1600x1200_witness :
  main (mkUniforms 0 (mk3 800 600 1) 1 8 1.2 8) (mk2 640 300) =
  main (mkUniforms 0 (mk3 1600 1200 1) 1 8 1.2 8) (mk2 1280 600) /\
  exists c : vec4, main (mkUniforms 0 (mk3 800 600 1) 1 8 1.2 8) (mk2 640 300) = Some c.
Proof.
  split.
  - apply (main_invariant_800x600_1600x1200 0 1 8 1.2 8 (mk2 640 300) (mk2 1280 600));
      cbn [ux uy]; lra.
  - unfold main, screen_uv. cbn [iResolution vx vy ux uy].
    rewrite !fdiv_some by lra. cbn [bind ret ux uy].
    replace (300 / 600 * 2 - 1) with 0 by lra.
    apply midline_pixel_defined. cbn [rs]. lra.
Defined.

(** * Further properties of the shading functions *)

(** ** Rodrigues' rotation *)

Section Rotation.

Variable k : vec3.
Hypothesis k_unit : dot k k = 1.

(** X1.  A rotation about a unit axis keeps the length of every vector. *)
Theorem rotateAround_keeps_length :
  forall (v : vec3) (a : R), length (rotateAround v k a) = length v.
Proof.
  intros v a. unfold length. f_equal.
  pose proof (sin2_cos2 a) as Hsc. unfold Rsqr in Hsc.
  unfold rotateAround. set (c := cos a) in *. set (s := sin a) in *.
  destruct v as [v1 v2 v3], k as [k1 k2 k3].
  unfold dot, cross, vadd, vscale in *. cbn [vx vy vz] in *.
  nsatz.
Qed.

(** X2.  Rotations about the same unit axis compose by adding their
    angles; the rotation by 0 is the identity, so the rotation by [- a]
    undoes the rotation by [a]. *)
Theorem rotateAround_composes :
  forall (v : vec3) (a b : R),
    rotateAround (rotateAround v k a) k b = rotateAround v k (a + b) /\
    rotateAround v k 0 = v /\
    rotateAround (rotateAround v k a) k (- a) = v.
Proof.
  assert (C : forall (v : vec3) (a b : R),
             rotateAround (rotateAround v k a) k b = rotateAround v k (a + b)).
  { intros v a b. unfold rotateAround. rewrite cos_plus, sin_plus.
    set (ca := cos a). set (sa := sin a). set (cb := cos b). set (sb := sin b).
    destruct v as [v1 v2 v3], k as [k1 k2 k3].
    unfold dot, cross, vadd, vscale in *. cbn [vx vy vz] in *.
    f_equal; nsatz. }
  assert (Z : forall v : vec3, rotateAround v k 0 = v).
  { intros v. unfold rotateAround. rewrite cos_0, sin_0.
    destruct v as [v1 v2 v3]. unfold dot, cross, vadd, vscale. cbn [vx vy vz].
    f_equal; ring. }
  intros v a b. split; [apply C | split; [apply Z |]].
  rewrite C. replace (a + - a) with 0 by ring. apply Z.
Qed.

(** X3.  A rotation about a unit axis keeps the component of a vector
    along the axis, and leaves the axis itself where it is. *)
Theorem rotateAround_keeps_axis_component :
  forall (v : vec3) (a : R),
    dot k (rotateAround v k a) = dot k v /\ rotateAround k k a = k.
Proof.
  intros v a. unfold rotateAround.
  set (c := cos a). set (s := sin a).
  destruct v as [v1 v2 v3], k as [k1 k2 k3].
  unfold dot, cross, vadd, vscale in *. cbn [vx vy vz] in *.
  split; [nsatz | f_equal; nsatz].
Qed.

End Rotation.

Lemma y_axis_unit : dot (mk3 0 1 0) (mk3 0 1 0) = 1.
Proof. unfold dot. cbn [vx vy vz]. ring. Qed.

Lemma rotateAround_keeps_length_witness :
  length (rotateAround (mk3 3 4 0) (mk3 0 1 0) 1) = length (mk3 3 4 0).
Proof. apply (rotateAround_keeps_length (mk3 0 1 0)). exact y_axis_unit. Defined.

Lemma rotateAround_composes_witness :
  rotateAround (rotateAround (mk3 3 4 0) (mk3 0 1 0) 1) (mk3 0 1 0) 2
    = rotateAround (mk3 3 4 0) (mk3 0 1 0) (1 + 2) /\
  rotateAround (mk3 3 4 0) (mk3 0 1 0) 0 = mk3 3 4 0 /\
  rotateAround (rotateAround (mk3 3 4 0) (mk3 0 1 0) 1) (mk3 0 1 0) (- 1) = mk3 3 4 0.
Proof. apply (rotateAround_composes (mk3 0 1 0)). exact y_axis_unit. Defined.

Lemma rotateAround_keeps_axis_component_witness :
  dot (mk3 0 1 0) (rotateAround (mk3 3 4 0) (mk3 0 1 0) 1) = dot (mk3 0 1 0) (mk3 3 4 0) /\
  rotateAround (mk3 0 1 0) (mk3 0 1 0) 1 = mk3 0 1 0.
Proof. apply (rotateAround_keeps_axis_component (mk3 0 1 0)). exact y_axis_unit. Defined.

(** ** The starfield *)

Lemma starfield_channels (dir : vec3) :
  length dir <> 0 ->
  exists c : vec3, starfield dir = Some c /\
    0 <= vx c <= vz c /\ 0 <= vy c <= vz c /\ vz c < 1.03.
Proof.
  intros H. unfold starfield.
  rewrite normalize_some by assumption. cbn [bind].
  set (p := vscale _ 123).
  destruct (smoothstep_unit 0.995 1 (hash13 (floor3 (vscale p 20)))) as [d [-> Hd]];
    [lra |].
  cbn [bind].
  destruct (pow_unit_interval d 24 Hd) as [m [-> Hm]]; [lra |].
  cbn [bind ret]. eexists; split; [reflexivity |].
  pose proof (hash13_range (vadds p 1)).
  pose proof (hash13_range (vadds p 2)).
  pose proof (hash13_range (floor3 (vscale dir 10))).
  cbn [vadd vscale vx vy vz]. repeat split; nra.
Qed.

(** X5.  For every direction other than the zero vector the starfield is
    defined; its channels are non-negative, blue is the largest and stays
    below 1.03.  For the zero vector it has no defined value. *)
Theorem starfield_bounded_bluish :
  forall dir : vec3,
    (length dir <> 0 ->
       exists c : vec3, starfield dir = Some c /\
         0 <= vx c <= vz c /\ 0 <= vy c <= vz c /\ vz c < 1.03) /\
    (length dir = 0 -> starfield dir = None).
Proof.
  intros dir. split.
  - apply starfield_channels.
  - intros Z. unfold starfield. rewrite (normalize_zero _ Z). reflexivity.
Qed.

Lemma length_0_0_0 : length (mk3 0 0 0) = 0.
Proof.
  unfold length, dot. cbn [vx vy vz].
  replace (0 * 0 + 0 * 0 + 0 * 0) with 0 by ring. apply sqrt_0.
Qed.

Lemma starfield_bounded_bluish_witness :
  (exists c : vec3, starfield (mk3 0 0 (-1)) = Some c /\
     0 <= vx c <= vz c /\ 0 <= vy c <= vz c /\ vz c < 1.03) /\
  starfield (mk3 0 0 0) = None.
Proof.
  split.
  - apply (starfield_bounded_bluish (mk3 0 0 (-1))). rewrite length_0_0_m1. lra.
  - apply (starfield_bounded_bluish (mk3 0 0 0)). exact length_0_0_0.
Defined.

(** ** The disk shader: ranges and degenerate annuli *)

Lemma Rpower_minus_3 (q : R) : 0 < q -> Rpower q (-3) = / (q * q * q).
Proof.
  intros H. replace (-3) with (- INR 3) by (simpl; lra).
  rewrite Rpower_Ropp, Rpower_pow by assumption. f_equal. ring.
Qed.

Lemma doppler_range (v c : R) :
  0 <= v <= 0.6 -> -1 <= c <= 1 ->
  exists D : R, doppler v c = Some D /\ 1 / 8 <= D <= 8.
Proof.
  intros Hv Hc. destruct (doppler_value v c Hv Hc) as [Hq E].
  eexists; split; [exact E |].
  rewrite Rpower_minus_3 by assumption.
  assert (Hs : 0 < sqrt (1 - v * v)) by (apply sqrt_lt_R0; nra).
  assert (Hss : sqrt (1 - v * v) * sqrt (1 - v * v) = 1 - v * v)
    by (apply sqrt_sqrt; nra).
  set (s := sqrt (1 - v * v)) in *.
  assert (Hlo : s <= 2 * (1 - v)) by nra.
  assert (Hhi : 1 + v <= 2 * s) by nra.
  assert (Q : 1 / 2 <= (1 - v * c) / s <= 2).
  { split.
    - apply (Rmult_le_reg_r s); [assumption |].
      unfold Rdiv at 2. rewrite Rmult_assoc, Rinv_l by lra. nra.
    - apply (Rmult_le_reg_r s); [assumption |].
      unfold Rdiv. rewrite Rmult_assoc, Rinv_l by lra. nra. }
  set (q := (1 - v * c) / s) in *.
  assert (C : 1 / 8 <= q * q * q <= 8) by nra.
  split.
  - replace (1 / 8) with (/ 8) by lra. apply Rinv_le_contravar; lra.
  - replace 8 with (/ (1 / 8)) by lra. apply Rinv_le_contravar; lra.
Qed.

(** X6.  For an orbital speed in [0, 0.6] and a cosine in [-1, 1] the
    Doppler factor is defined and lies between 1/8 and 8; at speed 0 it
    is 1. *)
Theorem doppler_between_eighth_and_eight :
  forall v c : R,
    0 <= v <= 0.6 -> -1 <= c <= 1 ->
    (exists D : R, doppler v c = Some D /\ 1 / 8 <= D <= 8) /\
    doppler 0 c = Some 1.
Proof.
  intros v c Hv Hc. split; [apply doppler_range; assumption |].
  unfold doppler.
  replace (1 - 0 * c) with 1 by ring. replace (1 - 0 * 0) with 1 by ring.
  rewrite sqrt_1, fdiv_some by lra. cbn [bind].
  replace (1 / 1) with 1 by lra.
  rewrite pow_pos_base by lra. f_equal.
  unfold Rpower. rewrite ln_1, Rmult_0_r. apply exp_0.
Qed.

Lemma doppler_between_eighth_and_eight_witness :
  (exists D : R, doppler 0.6 (-1) = Some D /\ 1 / 8 <= D <= 8) /\
  doppler 0 (-1) = Some 1.
Proof. apply (doppler_between_eighth_and_eight 0.6 (-1)); lra. Defined.

Lemma diskColor_inside (u : uniforms) (pos dir : vec3) :
  0 < diskInner u < diskOuter u -> length dir = 1 ->
  diskInner u <= length2 (xz pos) <= diskOuter u ->
  exists e D : R,
    diskColor u pos dir
      = Some (vscale (vscale (mix3 (mk3 0.8 0.4 0.1) (mk3 1 0.95 0.85) e) D) 0.6) /\
    0 <= e <= 1 /\ 1 / 8 <= D <= 8.
Proof.
  intros Hd Hdir Hr. unfold diskColor.
  set (r := length2 (xz pos)) in *.
  rewrite (ltb_false r (diskInner u)), (ltb_false (diskOuter u) r) by lra.
  cbn [orb]. rewrite fdiv_some by lra. cbn [bind].
  assert (Hl : length (mk3 (- vz pos) 0 (vx pos)) <> 0)
    by (rewrite tangential_length; fold r; lra).
  rewrite (normalize_some _ Hl). cbn [bind].
  set (tangential := mk3 _ _ _).
  set (v := clamp (sqrt (rs u / (2 * r))) 0 0.6).
  assert (Hv : 0 <= v <= 0.6) by (apply clamp_bounds; lra).
  assert (Hc : -1 <= dot tangential (vneg dir) <= 1).
  { rewrite dot_vneg_r.
    pose proof (dot_unit_bounds tangential dir (normalized_dot _ Hl) (unit_dot _ Hdir)).
    lra. }
  destruct (doppler_range v _ Hv Hc) as [D [-> HD]]. cbn [bind].
  rewrite fdiv_some by lra. cbn [bind].
  set (t := clamp _ 0 1).
  assert (Ht : 0 <= t <= 1) by (apply clamp_bounds; lra).
  destruct (pow_unit_interval t 0.6 Ht) as [e [-> He]]; [lra |]. cbn [bind ret].
  exists e, D. split; [reflexivity | split; assumption].
Qed.

(** X7.  With [0 < diskInner < diskOuter] and a unit view direction, the
    color of a point of the annulus is warm and bounded: red >= green >=
    blue, blue is at least 0.0075 and red at most 4.8. *)
Theorem diskColor_warm_and_bounded :
  forall (u : uniforms) (pos dir : vec3),
    0 < diskInner u < diskOuter u -> length dir = 1 ->
    diskInner u <= length2 (xz pos) <= diskOuter u ->
    exists c : vec3, diskColor u pos dir = Some c /\
      0.0075 <= vz c /\ vz c <= vy c /\ vy c <= vx c /\ vx c <= 4.8.
Proof.
  intros u pos dir Hd Hdir Hr.
  destruct (diskColor_inside u pos dir Hd Hdir Hr) as [e [D [-> [He HD]]]].
  eexists; split; [reflexivity |].
  unfold mix3, mix, vscale. cbn [vx vy vz]. repeat split; nra.
Qed.

Lemma diskColor_warm_and_bounded_witness :
  exists c : vec3,
    diskColor (defaults 800 600) (mk3 3 0 4) (mk3 0 0 (-1)) = Some c /\
    0.0075 <= vz c /\ vz c <= vy c /\ vy c <= vx c /\ vx c <= 4.8.
Proof.
  apply (diskColor_warm_and_bounded (defaults 800 600) (mk3 3 0 4) (mk3 0 0 (-1))).
  - cbn. lra.
  - exact length_0_0_m1.
  - rewrite length2_3_4. cbn. lra.
Defined.

(** X8.  When the inner radius exceeds the outer one the annulus is
    empty: the disk shader returns the zero color for every point and
    every direction. *)
Theorem diskColor_empty_annulus :
  forall (u : uniforms) (pos dir : vec3),
    diskOuter u < diskInner u -> diskColor u pos dir = Some (mk3 0 0 0).
Proof.
  intros u pos dir H. unfold diskColor.
  destruct (Rlt_le_dec (length2 (xz pos)) (diskInner u)) as [Hlo | Hhi].
  - rewrite (ltb_true _ _ Hlo). reflexivity.
  - rewrite (ltb_true (diskOuter u) (length2 (xz pos))) by lra.
    rewrite Bool.orb_true_r. reflexivity.
Qed.

Lemma diskColor_empty_annulus_witness :
  diskColor (mkUniforms 0 (mk3 800 600 1) 1 8 8 1.2) (mk3 3 0 4) (mk3 0 0 (-1))
  = Some (mk3 0 0 0).
Proof.
  apply (diskColor_empty_annulus (mkUniforms 0 (mk3 800 600 1) 1 8 8 1.2)).
  cbn. lra.
Defined.

(** X9.  When the two radii coincide, the temperature gradient divides
    0 by 0 on the circle that is left of the annulus: for a unit view
    direction the disk shader has no defined color there. *)
Theorem diskColor_degenerate_annulus :
  forall (u : uniforms) (pos dir : vec3),
    0 < diskInner u -> diskInner u = diskOuter u -> length dir = 1 ->
    length2 (xz pos) = diskInner u ->
    diskColor u pos dir = None.
Proof.
  intros u pos dir Hpos Heq Hdir Hr. unfold diskColor.
  set (r := length2 (xz pos)) in *.
  rewrite (ltb_false r (diskInner u)), (ltb_false (diskOuter u) r) by lra.
  cbn [orb]. rewrite fdiv_some by lra. cbn [bind].
  assert (Hl : length (mk3 (- vz pos) 0 (vx pos)) <> 0)
    by (rewrite tangential_length; fold r; lra).
  rewrite (normalize_some _ Hl). cbn [bind].
  set (tangential := mk3 _ _ _).
  set (v := clamp (sqrt (rs u / (2 * r))) 0 0.6).
  assert (Hv : 0 <= v <= 0.6) by (apply clamp_bounds; lra).
  assert (Hc : -1 <= dot tangential (vneg dir) <= 1).
  { rewrite dot_vneg_r.
    pose proof (dot_unit_bounds tangential dir (normalized_dot _ Hl) (unit_dot _ Hdir)).
    lra. }
  destruct (doppler_range v _ Hv Hc) as [D [-> HD]]. cbn [bind].
  rewrite fdiv_zero by lra. reflexivity.
Qed.

Lemma diskColor_degenerate_annulus_witness :
  diskColor (mkUniforms 0 (mk3 800 600 1) 1 8 5 5) (mk3 3 0 4) (mk3 0 0 (-1)) = None.
Proof.
  apply (diskColor_degenerate_annulus (mkUniforms 0 (mk3 800 600 1) 1 8 5 5)).
  - cbn. lra.
  - reflexivity.
  - exact length_0_0_m1.
  - rewrite length2_3_4. reflexivity.
Defined.

(** ** The ray bender: what every result satisfies *)

Lemma cross_perp_r (o d : vec3) : dot (cross o d) d = 0.
Proof. destruct o, d. unfold dot, cross. cbn [vx vy vz]. ring. Qed.

(** X10.  For [rs > 0] and a unit direction the ray bender always has a
    defined result: a unit direction and a flag that is 1 when
    [|ro x rd| < 2.59807621135 * rs] and 0 otherwise. *)
Theorem bendRay_total_unit :
  forall (ro rd : vec3) (rs_local : R),
    0 < rs_local -> length rd = 1 ->
    exists (rd2 : vec3) (capture : R),
      bendRay ro rd rs_local = Some (rd2, capture) /\
      length rd2 = 1 /\
      (length (cross ro rd) < 2.59807621135 * rs_local -> capture = 1) /\
      (2.59807621135 * rs_local <= length (cross ro rd) -> capture = 0).
Proof.
  intros ro rd rs_local Hrs Hrd.
  destruct (Rlt_le_dec (length (cross ro rd)) (bc_of rs_local)) as [Hc | He].
  - exists rd, 1. rewrite (bendRay_captured _ _ _ Hc). unfold bc_of in Hc.
    repeat split; [assumption | lra].
  - destruct (bendRay_deflects _ _ _ Hrs Hrd He) as [axis [d' [_ [Hb [_ [Hd' _]]]]]].
    exists d', 0. unfold bc_of in He. repeat split; [assumption | assumption | lra].
Qed.

Lemma bendRay_total_unit_witness :
  exists (rd2 : vec3) (capture : R),
    bendRay (mk3 3 0 0) (mk3 0 0 (-1)) 1 = Some (rd2, capture) /\
    length rd2 = 1 /\
    (length (cross (mk3 3 0 0) (mk3 0 0 (-1))) < 2.59807621135 * 1 -> capture = 1) /\
    (2.59807621135 * 1 <= length (cross (mk3 3 0 0) (mk3 0 0 (-1))) -> capture = 0).
Proof.
  apply (bendRay_total_unit (mk3 3 0 0) (mk3 0 0 (-1)) 1); [lra | exact length_0_0_m1].
Defined.

(** X11.  The bent direction stays in the plane of the ray and the black
    hole: whatever the ray bender returns is perpendicular to
    [ro x rd]. *)
Theorem bendRay_stays_in_plane :
  forall (ro rd : vec3) (rs_local : R) (rd2 : vec3) (capture : R),
    bendRay ro rd rs_local = Some (rd2, capture) ->
    dot (cross ro rd) rd2 = 0.
Proof.
  intros ro rd rs_local rd2 capture H. unfold bendRay in H.
  destruct (ltb _ _) in H.
  - injection H as <- _. apply cross_perp_r.
  - destruct (fdiv _ _) as [alpha |] in H; [| discriminate]. cbn [bind] in H.
    destruct (normalize (cross ro rd)) as [axis |] eqn:Ea; [| discriminate].
    cbn [bind ret] in H. injection H as <- _.
    apply normalize_inv in Ea. destruct Ea as [Hb ->].
    set (b := length (cross ro rd)) in *.
    unfold rotateAround. set (c := cos alpha). set (s := sin alpha).
    destruct ro as [o1 o2 o3], rd as [d1 d2 d3].
    unfold dot, cross, vadd, vscale. cbn [vx vy vz]. field. assumption.
Qed.

Lemma bendRay_stays_in_plane_witness :
  exists rd2 : vec3,
    bendRay (mk3 3 0 0) (mk3 0 0 (-1)) 1 = Some (rd2, 0) /\
    angle (mk3 0 0 (-1)) rd2 = 2 / 3 /\
    length (cross (mk3 3 0 0) (mk3 0 0 (-1))) = 3 /\
    dot (cross (mk3 3 0 0) (mk3 0 0 (-1))) rd2 = 0.
Proof.
  destruct (bendRay_deflects (mk3 3 0 0) (mk3 0 0 (-1)) 1)
    as [axis [rd2 [_ [Hb [_ [_ [Ha _]]]]]]].
  - lra.
  - exact length_0_0_m1.
  - rewrite length_cross_3. unfold bc_of. lra.
  - exists rd2. split; [exact Hb |]. split; [| split; [exact length_cross_3 |]].
    + rewrite Ha, length_cross_3.
      assert (Hm : max 3 1e-5 = 3) by (max_cases 3 1e-5; lra).
      rewrite Hm. lra.
    + apply (bendRay_stays_in_plane (mk3 3 0 0) (mk3 0 0 (-1)) 1 rd2 0). exact Hb.
Defined.

(** X12.  Among rays that escape, the one passing farther from the hole
    is bent less, and no ray is bent by more than 2 / 2.59807621135
    (about 0.77 rad). *)
Theorem bendRay_deflection_monotone :
  forall (o1 d1 o2 d2 : vec3) (rs_local : R),
    0 < rs_local -> length d1 = 1 -> length d2 = 1 ->
    2.59807621135 * rs_local <= length (cross o1 d1) ->
    length (cross o1 d1) <= length (cross o2 d2) ->
    exists d1' d2' : vec3,
      bendRay o1 d1 rs_local = Some (d1', 0) /\
      bendRay o2 d2 rs_local = Some (d2', 0) /\
      angle d2 d2' <= angle d1 d1' /\
      angle d1 d1' <= 2 / 2.59807621135.
Proof.
  intros o1 d1 o2 d2 rs_local Hrs H1 H2 Hb1 Hb12.
  destruct (bendRay_deflects o1 d1 rs_local Hrs H1) as [_ [d1' [_ [B1 [_ [_ [A1 _]]]]]]];
    [exact Hb1 |].
  destruct (bendRay_deflects o2 d2 rs_local Hrs H2) as [_ [d2' [_ [B2 [_ [_ [A2 _]]]]]]];
    [unfold bc_of; lra |].
  exists d1', d2'. split; [exact B1 | split; [exact B2 |]].
  rewrite A1, A2.
  set (b1 := length (cross o1 d1)) in *. set (b2 := length (cross o2 d2)) in *.
  assert (M1 : max b1 1e-5 = b1 \/ max b1 1e-5 = 1e-5) by (max_cases b1 1e-5; tauto).
  assert (P1 : b1 <= max b1 1e-5) by (max_cases b1 1e-5; lra).
  assert (M12 : max b1 1e-5 <= max b2 1e-5)
    by (max_cases b1 1e-5; max_cases b2 1e-5; lra).
  assert (Hpos : 0 < max b1 1e-5) by lra.
  split.
  - unfold Rdiv. apply Rmult_le_compat_l; [lra |].
    apply Rinv_le_contravar; assumption.
  - apply (Rmult_le_reg_r (max b1 1e-5)); [assumption |].
    unfold Rdiv at 1. rewrite Rmult_assoc, Rinv_l by lra.
    apply (Rmult_le_reg_r 2.59807621135); [lra |].
    replace (2 / 2.59807621135 * max b1 1e-5 * 2.59807621135)
      with (2 * max b1 1e-5) by (field; lra).
    nra.
Qed.

Lemma bendRay_deflection_monotone_witness :
  exists d1' d2' : vec3,
    bendRay (mk3 3 0 0) (mk3 0 0 (-1)) 1 = Some (d1', 0) /\
    bendRay (mk3 9 0 0) (mk3 0 0 (-1)) 1 = Some (d2', 0) /\
    angle (mk3 0 0 (-1)) d2' <= angle (mk3 0 0 (-1)) d1' /\
    angle (mk3 0 0 (-1)) d1' <= 2 / 2.59807621135.
Proof.
  apply (bendRay_deflection_monotone (mk3 3 0 0) (mk3 0 0 (-1)) (mk3 9 0 0) (mk3 0 0 (-1)) 1).
  - lra.
  - exact length_0_0_m1.
  - exact length_0_0_m1.
  - rewrite length_cross_3. lra.
  - rewrite length_cross_3, (length_cross_x_axis 9) by lra. lra.
Defined.

(** X13.  With [rs <= 0] nothing is captured, and a ray that points
    straight at the hole or away from it ([ro x rd = 0]) has no rotation
    axis: the ray bender has no defined result. *)
Theorem bendRay_undefined_without_axis :
  forall (ro rd : vec3) (rs_local : R),
    rs_local <= 0 -> length (cross ro rd) = 0 ->
    bendRay ro rd rs_local = None.
Proof.
  intros ro rd rs_local Hrs Hb. unfold bendRay.
  rewrite ltb_false by (unfold bc_of; rewrite Hb; lra).
  rewrite Hb.
  assert (Hm : max 0 1e-5 = 1e-5) by (max_cases 0 1e-5; lra).
  rewrite Hm, fdiv_some by lra. cbn [bind].
  rewrite (normalize_zero _ Hb). reflexivity.
Qed.

Lemma bendRay_undefined_without_axis_witness :
  bendRay (mk3 0 0 8) (mk3 0 0 (-1)) 0 = None.
Proof.
  apply (bendRay_undefined_without_axis (mk3 0 0 8) (mk3 0 0 (-1)) 0);
    [lra | exact length_cross_center].
Defined.

(** ** The disk intersector away from the camera's plane *)

(** X14.  Where the denominator [rd.y + 1e-6] is not zero, the disk
    intersector reports a hit exactly when [ro.y] and [rd.y + 1e-6] have
    opposite signs.  The hit is the point of the ray at the positive
    parameter [t = -ro.y / (rd.y + 1e-6)], and it lies off the plane
    y = 0, below it, at [y = -1e-6 * t]. *)
Theorem intersectDisk_hits_below_plane :
  forall ro rd : vec3,
    vy rd + 1e-6 <> 0 ->
    (vy ro * (vy rd + 1e-6) < 0 ->
       exists t : R, 0 < t /\ t = - vy ro / (vy rd + 1e-6) /\
         intersectDisk ro rd = Some (Some (vadd ro (vscale rd t))) /\
         vy (vadd ro (vscale rd t)) = - (1e-6 * t)) /\
    (0 <= vy ro * (vy rd + 1e-6) -> intersectDisk ro rd = Some None).
Proof.
  intros ro rd Hnz. unfold intersectDisk.
  rewrite fdiv_some by assumption. cbn [bind].
  assert (Hv : vy (vadd ro (vscale rd (- vy ro / (vy rd + 1e-6))))
               = - (1e-6 * (- vy ro / (vy rd + 1e-6)))).
  { unfold vadd, vscale. cbn [vx vy vz]. field. lra. }
  set (e := vy rd + 1e-6) in *.
  assert (Hi : 0 < / e * / e).
  { assert (/ e <> 0) by (apply Rinv_neq_0_compat; assumption). nra. }
  assert (Ht : - vy ro / e = - (vy ro * e) * (/ e * / e)) by (field; assumption).
  split.
  - intros Hs. exists (- vy ro / e).
    assert (Hp : 0 < - vy ro / e) by (rewrite Ht; apply Rmult_lt_0_compat; lra).
    split; [exact Hp | split; [reflexivity |]].
    rewrite leb_false by exact Hp. split; [reflexivity | exact Hv].
  - intros Hs.
    assert (Hp : - vy ro / e <= 0).
    { rewrite Ht. assert (0 <= vy ro * e * (/ e * / e)) by (apply Rmult_le_pos; lra). lra. }
    rewrite leb_true by exact Hp. reflexivity.
Qed.

Lemma intersectDisk_hits_below_plane_witness :
  (exists t : R, 0 < t /\ t = - vy (mk3 0 2 0) / (vy (mk3 0 (-1) 0) + 1e-6) /\
     intersectDisk (mk3 0 2 0) (mk3 0 (-1) 0)
       = Some (Some (vadd (mk3 0 2 0) (vscale (mk3 0 (-1) 0) t))) /\
     vy (vadd (mk3 0 2 0) (vscale (mk3 0 (-1) 0) t)) = - (1e-6 * t)) /\
  intersectDisk (mk3 0 2 0) (mk3 0 1 0) = Some None.
Proof.
  split.
  - apply (intersectDisk_hits_below_plane (mk3 0 2 0) (mk3 0 (-1) 0)); cbn [vy]; lra.
  - apply (intersectDisk_hits_below_plane (mk3 0 2 0) (mk3 0 1 0)); cbn [vy]; lra.
Defined.

(** ** The redshift factor and the disk blend *)

Lemma redshift_defined (rs_ r : R) :
  redshift rs_ r = Some (sqrt (max (1 - rs_ / max r 1e-3) 0.0001)) /\ 0 < max r 1e-3.
Proof.
  assert (Hm : 0 < max r 1e-3) by (max_cases r 1e-3; lra).
  split; [| exact Hm].
  unfold redshift. rewrite fdiv_some by lra. reflexivity.
Qed.

(** X15.  For [rs >= 0] the redshift factor is defined at every radius,
    never below 0.01, and it does not decrease when the radius grows. *)
Theorem redshift_monotone :
  forall rs_ r1 r2 : R,
    0 <= rs_ -> r1 <= r2 ->
    exists z1 z2 : R,
      redshift rs_ r1 = Some z1 /\ redshift rs_ r2 = Some z2 /\
      0.01 <= z1 /\ z1 <= z2.
Proof.
  intros rs_ r1 r2 Hrs Hr.
  destruct (redshift_defined rs_ r1) as [E1 P1].
  destruct (redshift_defined rs_ r2) as [E2 P2].
  eexists; eexists. split; [exact E1 | split; [exact E2 |]].
  assert (Hm : max r1 1e-3 <= max r2 1e-3)
    by (max_cases r1 1e-3; max_cases r2 1e-3; lra).
  assert (Hq : rs_ / max r2 1e-3 <= rs_ / max r1 1e-3).
  { unfold Rdiv. apply Rmult_le_compat_l; [assumption |].
    apply Rinv_le_contravar; assumption. }
  set (q1 := rs_ / max r1 1e-3) in *. set (q2 := rs_ / max r2 1e-3) in *.
  assert (F1 : 0.0001 <= max (1 - q1) 0.0001) by (max_cases (1 - q1) 0.0001; lra).
  assert (F12 : max (1 - q1) 0.0001 <= max (1 - q2) 0.0001)
    by (max_cases (1 - q1) 0.0001; max_cases (1 - q2) 0.0001; lra).
  split.
  - rewrite <- sqrt_1_10000. apply sqrt_le_1; lra.
  - apply sqrt_le_1; lra.
Qed.

Lemma redshift_monotone_witness :
  exists z1 z2 : R,
    redshift 1 2 = Some z1 /\ redshift 1 4 = Some z2 /\ 0.01 <= z1 /\ z1 <= z2.
Proof. apply (redshift_monotone 1 2 4); lra. Defined.

Lemma mix3_zero (x y : vec3) : mix3 x y (0 * 0 * (3 - 2 * 0) * 0.85) = x.
Proof. destruct x, y. unfold mix3, mix. cbn [vx vy vz]. f_equal; ring. Qed.

Lemma diskColor_defined_from_inner (u : uniforms) (pos dir : vec3) :
  0 < diskInner u < diskOuter u -> length dir = 1 ->
  diskInner u <= length2 (xz pos) ->
  exists c : vec3, diskColor u pos dir = Some c.
Proof.
  intros Hd Hdir Hr.
  destruct (Rle_lt_dec (length2 (xz pos)) (diskOuter u)) as [Hin | Hout].
  - destruct (diskColor_inside u pos dir Hd Hdir (conj Hr Hin)) as [e [D [-> _]]].
    eexists; reflexivity.
  - exists (splat 0). unfold diskColor.
    rewrite (ltb_true _ _ Hout), Bool.orb_true_r. reflexivity.
Qed.

(** X16.  With [0 < diskInner < diskOuter] and a unit direction, the disk
    blend returns the background color unchanged for a hit no farther
    than [1.05 * rs] from the axis and for a hit at or beyond
    [diskOuter]. *)
Theorem diskBlend_keeps_background :
  forall (u : uniforms) (col hit rd2 : vec3),
    0 < diskInner u < diskOuter u -> length rd2 = 1 ->
    length2 (xz hit) <= 1.05 * rs u \/ diskOuter u <= length2 (xz hit) ->
    diskBlend u col hit rd2 = Some col.
Proof.
  intros u col hit rd2 Hd Hdir Hr. unfold diskBlend.
  set (r := length2 (xz hit)) in *.
  destruct (Rlt_le_dec (1.05 * rs u) r) as [Hfar | Hnear].
  - destruct Hr as [Hr | Hr]; [lra |].
    rewrite (ltb_true _ _ Hfar).
    destruct (diskColor_defined_from_inner u hit rd2 Hd Hdir) as [dcol ->];
      [fold r; lra |].
    cbn [bind].
    destruct (redshift_defined (rs u) r) as [-> _]. cbn [bind].
    unfold smoothstep. rewrite fdiv_some by lra. cbn [bind ret].
    assert (Hq : (r - diskOuter u) / (diskInner u - diskOuter u) <= 0).
    { unfold Rdiv.
      assert (/ (diskInner u - diskOuter u) < 0) by (apply Rinv_lt_0_compat; lra).
      nra. }
    assert (Hc : clamp ((r - diskOuter u) / (diskInner u - diskOuter u)) 0 1 = 0).
    { unfold clamp.
      max_cases ((r - diskOuter u) / (diskInner u - diskOuter u)) 0;
        destruct (min_spec 0 1) as [[? E] | [? E]]; try lra;
        try (replace ((r - diskOuter u) / (diskInner u - diskOuter u)) with 0 by lra);
        exact E. }
    rewrite Hc, mix3_zero. reflexivity.
  - rewrite (ltb_false _ _ Hnear). reflexivity.
Qed.

Lemma diskBlend_keeps_background_witness :
  diskBlend (defaults 800 600) (mk3 0.1 0.2 0.3) (mk3 9 0 0) (mk3 0 0 (-1))
  = Some (mk3 0.1 0.2 0.3).
Proof.
  apply (diskBlend_keeps_background (defaults 800 600)).
  - cbn. lra.
  - exact length_0_0_m1.
  - right. rewrite length2_9_0. cbn. lra.
Defined.

(** ** The whole pixel *)

Lemma tonemap_range (x : R) : 0 < x -> exists t : R, tonemap x = Some t /\ 0 < t < 1.
Proof.
  intros H. exists (x / (x + 1)). split; [apply tonemap_value; lra |].
  split.
  - apply Rdiv_lt_0_compat; lra.
  - apply (Rmult_lt_reg_r (x + 1)); [lra |].
    unfold Rdiv. rewrite Rmult_assoc, Rinv_l by lra. lra.
Qed.

Lemma finish_range (ro rd : vec3) (rs_ : R) (uv : vec2) (col : vec3) :
  0 <= vx col -> 0 <= vy col -> 0 <= vz col ->
  exists c : vec4, finish ro rd rs_ uv col = Some c /\
    0 < wx c < 1 /\ 0 < wy c < 1 /\ 0 < wz c < 1 /\ ww c = 1.
Proof.
  intros Hx Hy Hz. unfold finish.
  destruct (smoothstep_unit 1.4 0.1 (length2 uv)) as [vig [-> Hv]]; [lra |].
  cbn [bind].
  set (ring := exp _).
  assert (Hr : 0 < ring) by apply exp_pos.
  assert (Hm : 0.6 <= mix 0.6 1 vig) by (unfold mix; nra).
  cbn [vadd vscale vx vy vz].
  destruct (tonemap_range ((vx col + 1 * ring * 0.35) * mix 0.6 1 vig)) as [r [-> Hr']];
    [apply Rmult_lt_0_compat; nra |].
  destruct (tonemap_range ((vy col + 0.9 * ring * 0.35) * mix 0.6 1 vig)) as [g [-> Hg']];
    [apply Rmult_lt_0_compat; nra |].
  destruct (tonemap_range ((vz col + 0.7 * ring * 0.35) * mix 0.6 1 vig)) as [b [-> Hb']];
    [apply Rmult_lt_0_compat; nra |].
  cbn [bind ret]. eexists; split; [reflexivity |]. cbn [wx wy wz ww].
  repeat split; lra.
Qed.

(** X17.  For [rs > 0], a pixel that is not captured and whose bent
    direction [rd2] has [rd2.y + 1e-6 <> 0] gets a defined color with
    red, green and blue strictly between 0 and 1 and alpha 1: outside the
    shadow no pixel is exactly black, and none saturates. *)
Theorem shade_displayable :
  forall (u : uniforms) (uv : vec2) (rd : vec3),
    0 < rs u ->
    normalize (mk3 (ux uv) (uy uv) (-1.5)) = Some rd ->
    2.59807621135 * rs u <= length (cross (mk3 0 0 (camDistance u)) rd) ->
    (forall bent : vec3 * R,
       bendRay (mk3 0 0 (camDistance u)) rd (rs u) = Some bent ->
       vy (fst bent) + 1e-6 <> 0) ->
    exists c : vec4, shade u uv = Some c /\
      0 < wx c < 1 /\ 0 < wy c < 1 /\ 0 < wz c < 1 /\ ww c = 1.
Proof.
  intros u uv rd Hrs En He H.
  assert (Hrd : length rd = 1).
  { destruct (camera_ray_unit (ux uv) (uy uv)) as [rd' [En' Hu]].
    rewrite En in En'. injection En' as <-. exact Hu. }
  assert (E : shade u uv = shadeNoDisk u uv).
  { apply shade_skips_disk. intros rd' bent En' Eb.
    rewrite En in En'. injection En' as <-. apply H. exact Eb. }
  rewrite E. unfold shadeNoDisk. rewrite En. cbn [bind].
  destruct (bendRay_deflects _ _ _ Hrs Hrd He) as [axis [d' [_ [-> [_ [Hd' _]]]]]].
  cbn [bind fst snd]. rewrite ltb_false by lra.
  destruct (starfield_defined d' Hd') as [bg [-> [B1 [B2 B3]]]]. cbn [bind].
  apply finish_range; assumption.
Qed.

Lemma bendRay_flag_0 (ro rd : vec3) (rs_local : R) (rd2 : vec3) :
  bendRay ro rd rs_local = Some (rd2, 0) -> bc_of rs_local <= length (cross ro rd).
Proof.
  intros H.
  destruct (Rlt_le_dec (length (cross ro rd)) (bc_of rs_local)) as [Hc | ?];
    [exfalso | assumption].
  rewrite (bendRay_captured _ _ _ Hc) in H. injection H as _ H. lra.
Qed.

Lemma shade_displayable_witness :
  exists c : vec4, shade (defaults 800 600) (mk2 0.8 0) = Some c /\
    0 < wx c < 1 /\ 0 < wy c < 1 /\ 0 < wz c < 1 /\ ww c = 1.
Proof.
  destruct midline_pixel_escapes as [rd [d' [En Eb]]].
  apply (shade_displayable (defaults 800 600) (mk2 0.8 0) rd).
  - cbn. lra.
  - exact En.
  - exact (bendRay_flag_0 _ _ _ _ Eb).
  - intros bent Eb'. rewrite (midline_bent_level _ _ _ _ _ En Eb'). lra.
Defined.

(** ** The shape of the shadow *)

(** The impact parameter of the camera ray through [uv]. *)
Lemma camera_impact (cam x y : R) :
  exists rd : vec3,
    normalize (mk3 x y (-1.5)) = Some rd /\
    length (cross (mk3 0 0 cam) rd)
      = Rabs cam * sqrt (x * x + y * y) / sqrt (x * x + y * y + 2.25).
Proof.
  assert (L : length (mk3 x y (-1.5)) = sqrt (x * x + y * y + 2.25)).
  { unfold length, dot. cbn [vx vy vz]. f_equal. lra. }
  assert (Hl : 0 < sqrt (x * x + y * y + 2.25)) by (apply sqrt_lt_R0; nra).
  eexists. split; [apply normalize_some; lra |].
  rewrite L. set (l := sqrt (x * x + y * y + 2.25)) in *.
  assert (Hrho : sqrt (x * x + y * y) * sqrt (x * x + y * y) = x * x + y * y)
    by (apply sqrt_sqrt; nra).
  pose proof (sqrt_pos (x * x + y * y)) as Hp.
  set (rho := sqrt (x * x + y * y)) in *.
  unfold length, cross, dot. cbn [vx vy vz].
  apply sqrt_lem_1.
  - assert (0 <= cam * cam * (x * x + y * y) * (/ l * / l)).
    { apply Rmult_le_pos; [nra |]. assert (0 < / l) by (apply Rinv_0_lt_compat; lra). nra. }
    replace ((0 * (-1.5 / l) - cam * (y / l)) * (0 * (-1.5 / l) - cam * (y / l))
             + (cam * (x / l) - 0 * (-1.5 / l)) * (cam * (x / l) - 0 * (-1.5 / l))
             + (0 * (y / l) - 0 * (x / l)) * (0 * (y / l) - 0 * (x / l)))
      with (cam * cam * (x * x + y * y) * (/ l * / l)) by (field; lra).
    assumption.
  - apply Rmult_le_pos; [apply Rmult_le_pos; [apply Rabs_pos | assumption] |].
    left. apply Rinv_0_lt_compat. lra.
  - transitivity (Rabs cam * Rabs cam * (rho * rho) * (/ l * / l)); [field; lra |].
    replace (Rabs cam * Rabs cam) with (cam * cam)
      by (rewrite <- Rabs_mult; symmetry; apply Rabs_right; nra).
    rewrite Hrho. field. lra.
Qed.

Lemma impact_monotone (c r r' : R) :
  0 < c -> 0 <= r' <= r ->
  r' / sqrt (r' * r' + c) <= r / sqrt (r * r + c).
Proof.
  intros Hc Hr.
  assert (Hl : 0 < sqrt (r * r + c)) by (apply sqrt_lt_R0; nra).
  assert (Hl' : 0 < sqrt (r' * r' + c)) by (apply sqrt_lt_R0; nra).
  assert (S : sqrt (r * r + c) * sqrt (r * r + c) = r * r + c) by (apply sqrt_sqrt; nra).
  assert (S' : sqrt (r' * r' + c) * sqrt (r' * r' + c) = r' * r' + c)
    by (apply sqrt_sqrt; nra).
  set (l := sqrt (r * r + c)) in *. set (l' := sqrt (r' * r' + c)) in *.
  assert (K : r' * l <= r * l').
  { destruct (Rle_lt_dec (r' * l) (r * l')) as [? | Hgt]; [assumption | exfalso].
    assert (0 <= r * l') by (apply Rmult_le_pos; lra).
    assert (Q : (r * l') * (r * l') < (r' * l) * (r' * l)) by nra.
    replace ((r * l') * (r * l')) with (r * r * (l' * l')) in Q by ring.
    replace ((r' * l) * (r' * l)) with (r' * r' * (l * l)) in Q by ring.
    rewrite S, S' in Q.
    assert (r' * r' <= r * r) by (apply Rmult_le_compat; lra).
    assert (r' * r' * c <= r * r * c) by (apply Rmult_le_compat_r; lra).
    lra. }
  apply (Rmult_le_reg_r (l * l')); [apply Rmult_lt_0_compat; assumption |].
  replace (r' / l' * (l * l')) with (r' * l) by (field; lra).
  replace (r / l * (l * l')) with (r * l') by (field; lra).
  exact K.
Qed.

Lemma bendRay_flag_1 (ro rd : vec3) (rs_local : R) (bent : vec3 * R) :
  bendRay ro rd rs_local = Some bent -> snd bent = 1 ->
  length (cross ro rd) < bc_of rs_local.
Proof.
  intros H F. unfold bendRay in H.
  destruct (Rlt_le_dec (length (cross ro rd)) (bc_of rs_local)) as [? | Hge];
    [assumption | exfalso].
  rewrite (ltb_false _ _ Hge) in H.
  destruct (fdiv _ _) in H; [| discriminate]. cbn [bind] in H.
  destruct (normalize _) in H; [| discriminate]. cbn [bind ret] in H.
  injection H as <-. cbn [snd] in F. lra.
Qed.

(** X18.  The shadow is a disc centred on the screen: when the pixel at
    [uv] is captured, so is every pixel [uv'] at most as far from the
    centre. *)
Theorem shadow_is_centred_disc :
  forall (u : uniforms) (uv uv' : vec2) (rd rd' : vec3) (bent : vec3 * R),
    length2 uv' <= length2 uv ->
    normalize (mk3 (ux uv) (uy uv) (-1.5)) = Some rd ->
    normalize (mk3 (ux uv') (uy uv') (-1.5)) = Some rd' ->
    bendRay (mk3 0 0 (camDistance u)) rd (rs u) = Some bent -> snd bent = 1 ->
    bendRay (mk3 0 0 (camDistance u)) rd' (rs u) = Some (rd', 1).
Proof.
  intros u uv uv' rd rd' bent Hle En En' Eb F.
  pose proof (bendRay_flag_1 _ _ _ _ Eb F) as Hc.
  apply bendRay_captured.
  destruct (camera_impact (camDistance u) (ux uv) (uy uv)) as [r0 [E0 B0]].
  rewrite En in E0. injection E0 as <-.
  destruct (camera_impact (camDistance u) (ux uv') (uy uv')) as [r1 [E1 B1]].
  rewrite En' in E1. injection E1 as <-.
  rewrite B0 in Hc. rewrite B1. unfold length2 in Hle.
  pose proof (sqrt_pos (ux uv' * ux uv' + uy uv' * uy uv')) as P'.
  set (r := sqrt (ux uv * ux uv + uy uv * uy uv)) in *.
  set (r' := sqrt (ux uv' * ux uv' + uy uv' * uy uv')) in *.
  assert (S : r * r = ux uv * ux uv + uy uv * uy uv) by (apply sqrt_sqrt; nra).
  assert (S' : r' * r' = ux uv' * ux uv' + uy uv' * uy uv') by (apply sqrt_sqrt; nra).
  rewrite <- S in Hc. rewrite <- S'.
  pose proof (impact_monotone 2.25 r r' ltac:(lra) (conj P' Hle)) as M.
  pose proof (Rabs_pos (camDistance u)) as A.
  eapply Rle_lt_trans; [| exact Hc].
  unfold Rdiv in *. rewrite !Rmult_assoc. apply Rmult_le_compat_l; assumption.
Qed.

Lemma near_centre_captured :
  exists rd : vec3,
    normalize (mk3 0.1 0 (-1.5)) = Some rd /\
    bendRay (mk3 0 0 8) rd 1 = Some (rd, 1).
Proof.
  destruct (camera_impact 8 0.1 0) as [rd [En B]].
  exists rd. split; [exact En |].
  apply bendRay_captured. rewrite B. unfold bc_of.
  replace (0.1 * 0.1 + 0 * 0) with (0.1 * 0.1) by ring.
  rewrite sqrt_square, Rabs_right by lra.
  assert (H : sqrt (1.5 * 1.5) < sqrt (0.1 * 0.1 + 2.25)) by (apply sqrt_lt_1; lra).
  rewrite sqrt_square in H by lra.
  apply (Rmult_lt_reg_r (sqrt (0.1 * 0.1 + 2.25))); [lra |].
  unfold Rdiv. rewrite Rmult_assoc, Rinv_l by lra. lra.
Qed.

Lemma shadow_is_centred_disc_witness :
  bendRay (mk3 0 0 (camDistance (defaults 800 600))) (mk3 0 0 (-1)) (rs (defaults 800 600))
  = Some (mk3 0 0 (-1), 1).
Proof.
  destruct near_centre_captured as [rd [En Eb]].
  apply (shadow_is_centred_disc (defaults 800 600) (mk2 0.1 0) (mk2 0 0)
           rd (mk3 0 0 (-1)) (rd, 1)).
  - unfold length2. cbn [ux uy].
    replace (0 * 0 + 0 * 0) with 0 by ring. rewrite sqrt_0. apply sqrt_pos.
  - exact En.
  - exact center_camera_ray.
  - exact Eb.
  - reflexivity.
Defined.

(** X19.  With [rs > 0] and the camera no farther from the hole than the
    critical impact parameter, [|camDistance| <= 2.59807621135 * rs],
    every pixel is captured: the whole image is black. *)
Theorem camera_inside_shadow_all_black :
  forall (u : uniforms) (uv : vec2),
    0 < rs u -> Rabs (camDistance u) <= 2.59807621135 * rs u ->
    exists a : R, shade u uv = Some (mk4 0 0 0 a) /\ 0.94 <= a <= 1.
Proof.
  intros u uv Hrs Hcam.
  destruct (camera_impact (camDistance u) (ux uv) (uy uv)) as [rd [En B]].
  unfold shade. rewrite En. cbn [bind].
  assert (Hc : length (cross (mk3 0 0 (camDistance u)) rd) < bc_of (rs u)).
  { rewrite B. unfold bc_of.
    set (q := ux uv * ux uv + uy uv * uy uv) in *.
    assert (Hq : 0 <= q) by (unfold q; nra).
    assert (Hl : sqrt q < sqrt (q + 2.25)) by (apply sqrt_lt_1; lra).
    pose proof (sqrt_pos q) as P. pose proof (Rabs_pos (camDistance u)) as A.
    assert (F : 0 <= sqrt q / sqrt (q + 2.25) < 1).
    { split.
      - apply Rmult_le_pos; [assumption | left; apply Rinv_0_lt_compat; lra].
      - apply (Rmult_lt_reg_r (sqrt (q + 2.25))); [lra |].
        unfold Rdiv. rewrite Rmult_assoc, Rinv_l by lra. lra. }
    unfold Rdiv in *. rewrite Rmult_assoc.
    set (f := sqrt q * / sqrt (q + 2.25)) in *. nra. }
  rewrite (bendRay_captured _ _ _ Hc). cbn [bind fst snd].
  rewrite ltb_true by lra. apply shadow_black. exact Hrs.
Qed.

Lemma camera_inside_shadow_all_black_witness :
  exists a : R,
    shade (mkUniforms 0 (mk3 800 600 1) 1 2 1.2 8) (mk2 1 (-1)) = Some (mk4 0 0 0 a) /\
    0.94 <= a <= 1.
Proof.
  apply (camera_inside_shadow_all_black (mkUniforms 0 (mk3 800 600 1) 1 2 1.2 8)).
  - cbn. lra.
  - cbn [camDistance rs]. rewrite Rabs_right; lra.
Defined.

(** ** Screen coordinates and the host's uniforms *)

(** X20.  On a [w] by [h] surface with [w, h > 0], a fragment coordinate
    inside the surface is mapped to [uv] with [|uv.x| <= w / h] and
    [|uv.y| <= 1]; the centre of the surface is mapped to (0, 0). *)
Theorem screen_uv_range :
  forall (u : uniforms) (p : vec2),
    0 < vx (iResolution u) -> 0 < vy (iResolution u) ->
    0 <= ux p <= vx (iResolution u) -> 0 <= uy p <= vy (iResolution u) ->
    (exists uv : vec2, screen_uv u p = Some uv /\
       - (vx (iResolution u) / vy (iResolution u)) <= ux uv
         <= vx (iResolution u) / vy (iResolution u) /\
       -1 <= uy uv <= 1) /\
    screen_uv u (mk2 (vx (iResolution u) / 2) (vy (iResolution u) / 2)) = Some (mk2 0 0).
Proof.
  intros u p Hw Hh Hx Hy. unfold screen_uv.
  set (w := vx (iResolution u)) in *. set (h := vy (iResolution u)) in *.
  assert (Ha : 0 < w / h) by (apply Rdiv_lt_0_compat; assumption).
  split.
  - rewrite !fdiv_some by lra. cbn [bind ret ux uy].
    eexists; split; [reflexivity |]. cbn [ux uy].
    assert (Qx : 0 <= ux p / w <= 1).
    { split; [apply Rmult_le_pos; [lra | left; apply Rinv_0_lt_compat; lra] |].
      apply (Rmult_le_reg_r w); [assumption |].
      unfold Rdiv. rewrite Rmult_assoc, Rinv_l by lra. lra. }
    assert (Qy : 0 <= uy p / h <= 1).
    { split; [apply Rmult_le_pos; [lra | left; apply Rinv_0_lt_compat; lra] |].
      apply (Rmult_le_reg_r h); [assumption |].
      unfold Rdiv. rewrite Rmult_assoc, Rinv_l by lra. lra. }
    repeat split; nra.
  - cbn [ux uy]. rewrite !fdiv_some by lra. cbn [bind ret ux uy].
    replace (w / 2 / w) with (1 / 2) by (field; lra).
    replace (h / 2 / h) with (1 / 2) by (field; lra).
    replace (1 / 2 * 2 - 1) with 0 by lra.
    rewrite Rmult_0_l. reflexivity.
Qed.

Lemma screen_uv_range_witness :
  (exists uv : vec2, screen_uv (defaults 800 600) (mk2 640.5 300.5) = Some uv /\
     - (vx (iResolution (defaults 800 600)) / vy (iResolution (defaults 800 600)))
       <= ux uv
       <= vx (iResolution (defaults 800 600)) / vy (iResolution (defaults 800 600)) /\
     -1 <= uy uv <= 1) /\
  screen_uv (defaults 800 600)
    (mk2 (vx (iResolution (defaults 800 600)) / 2) (vy (iResolution (defaults 800 600)) / 2))
  = Some (mk2 0 0).
Proof.
  apply (screen_uv_range (defaults 800 600) (mk2 640.5 300.5)); cbn; lra.
Defined.

(** X21.  On a surface of zero width or zero height the shader has no
    defined result, at any pixel. *)
Theorem main_undefined_on_empty_surface :
  forall (u : uniforms) (p : vec2),
    vx (iResolution u) = 0 \/ vy (iResolution u) = 0 -> main u p = None.
Proof.
  intros u p H. unfold main, screen_uv.
  destruct H as [Z | Z].
  - rewrite (fdiv_zero (ux p) _ Z). reflexivity.
  - destruct (fdiv (ux p) (vx (iResolution u))); [| reflexivity]. cbn [bind].
    rewrite (fdiv_zero (uy p) _ Z). reflexivity.
Qed.

Lemma main_undefined_on_empty_surface_witness :
  main (defaults 800 0) (mk2 400 0) = None.
Proof.
  apply (main_undefined_on_empty_surface (defaults 800 0)). right. reflexivity.
Defined.

(** X22.  The time that [tick] writes every frame is never read: after
    any two calls of [tick] the shader gives the same result at every
    pixel, the one it gave before. *)
Theorem image_does_not_depend_on_time :
  forall (t t' : R) (u : uniforms) (p : vec2),
    main (tick t u) p = main (tick t' u) p /\ main (tick t u) p = main u p.
Proof. intros t t' u p. destruct u. split; reflexivity. Qed.

(** X23.  After [onResize] to two surfaces of the same aspect ratio (of
    non-zero width and height), the shader gives the same result at
    fragment coordinates in the same proportional position; time and the
    physical parameters stay as they were. *)
Theorem image_scales_with_surface :
  forall (w h w' h' : R) (u : uniforms) (p p' : vec2),
    w <> 0 -> h <> 0 -> w' <> 0 -> h' <> 0 ->
    w / h = w' / h' ->
    ux p / w = ux p' / w' -> uy p / h = uy p' / h' ->
    main (onResize w h u) p = main (onResize w' h' u) p' /\
    iTime (onResize w h u) = iTime u /\
    rs (onResize w h u) = rs u /\
    camDistance (onResize w h u) = camDistance u /\
    diskInner (onResize w h u) = diskInner u /\
    diskOuter (onResize w h u) = diskOuter u.
Proof.
  intros w h w' h' u p p' Hw Hh Hw' Hh' Ea Ex Ey.
  split; [| repeat split; reflexivity].
  unfold onResize. apply main_same_ratios; assumption.
Qed.

Lemma image_scales_with_surface_witness :
  main (onResize 1024 768 (defaults 800 600)) (mk2 512 192)
    = main (onResize 400 300 (defaults 800 600)) (mk2 200 75) /\
  iTime (onResize 1024 768 (defaults 800 600)) = iTime (defaults 800 600) /\
  rs (onResize 1024 768 (defaults 800 600)) = rs (defaults 800 600) /\
  camDistance (onResize 1024 768 (defaults 800 600)) = camDistance (defaults 800 600) /\
  diskInner (onResize 1024 768 (defaults 800 600)) = diskInner (defaults 800 600) /\
  diskOuter (onResize 1024 768 (defaults 800 600)) = diskOuter (defaults 800 600).
Proof.
  apply (image_scales_with_surface 1024 768 400 300 (defaults 800 600)
           (mk2 512 192) (mk2 200 75)); cbn [ux uy]; lra.
Defined.
